(** * add_bson_tags: the struct-tag rewriter of scripts/add_bson_tags.py

    The script walks the [*.go] files of the model directory and, in every
    file that carries no [bson:] tag yet, inserts a [bson:] tag between each
    adjacent [json:]/[db:] tag pair.  This development embeds the script
    (text primitives, the regular expression, the replacement callback, the
    per-file body and the loop over the directory) and proves the script's
    documented behaviour about that embedding. *)

From Stdlib Require Import List Ascii String Arith Lia Bool.
From Stdlib Require Import Sorting.Sorted Sorting.Permutation.
From stdpp Require Import gmap strings.
Import ListNotations.

Local Open Scope list_scope.

(** ** Text

    A Python [str] is modelled as the list of its characters.  The
    characters the script looks for (the double quote, the comma, the
    space, the letters of the tag names) are ASCII, and in UTF-8 no byte of
    another character equals one of them: the characters are taken as
    bytes.  A file that does not decode is a file that cannot be read. *)

Abbreviation str := (list ascii).

Definition lit (s : string) : str := list_ascii_of_string s.

(** The double quote character, code point 34. *)
Definition dquote : ascii := ascii_of_nat 34.
Definition comma : ascii := ascii_of_nat 44.
Definition space : ascii := ascii_of_nat 32.
Definition slash : ascii := ascii_of_nat 47.
Definition dot : ascii := ascii_of_nat 46.

(** [s.startswith(pat)] *)
Fixpoint starts_with (pat s : str) : bool :=
  match pat, s with
  | [], _ => true
  | _ :: _, [] => false
  | p :: pat', c :: s' => Ascii.eqb p c && starts_with pat' s'
  end.

(** [s.endswith(pat)] *)
Definition ends_with (pat s : str) : bool :=
  starts_with (rev pat) (rev s).

(** [pat in s]: some suffix of [s] starts with [pat]. *)
Fixpoint contains (pat s : str) : bool :=
  starts_with pat s ||
  match s with
  | [] => false
  | _ :: s' => contains pat s'
  end.

(** [s.split(sep)[0]]: the text before the first [sep], all of [s] when
    there is none. *)
Fixpoint first_component (sep : ascii) (s : str) : str :=
  match s with
  | [] => []
  | c :: s' => if Ascii.eqb c sep then [] else c :: first_component sep s'
  end.

(** ** The replacement callback [replace_json_db] *)

Definition omitempty_suffix : str := comma :: lit "omitempty".

Definition json_name (json_val : str) : str := first_component comma json_val.

Definition omitempty (json_val : str) : bool := contains omitempty_suffix json_val.

Definition bson_name (json_val db_val : str) : str :=
  if decide (json_name json_val = lit "-") then first_component comma db_val
  else if decide (json_name json_val = lit "id") then lit "_id"
  else json_name json_val.

Definition bson_val (json_val db_val : str) : str :=
  bson_name json_val db_val ++ (if omitempty json_val then omitempty_suffix else []).

(** The three tags as they are written in a struct tag. *)
Definition json_tag (v : str) : str := lit "json:" ++ dquote :: v ++ [dquote].
Definition bson_tag (v : str) : str := lit "bson:" ++ dquote :: v ++ [dquote].
Definition db_tag (v : str) : str := lit "db:" ++ dquote :: v ++ [dquote].

(** The f-string returned by the callback, written out piece by piece. *)
Definition replace_json_db (json_val db_val : str) : str :=
  lit "json:" ++ [dquote] ++ json_val ++ [dquote] ++
  lit " bson:" ++ [dquote] ++ bson_val json_val db_val ++ [dquote] ++
  lit " db:" ++ [dquote] ++ db_val ++ [dquote].

(** ** The regular expression

    The pattern of the script reads: [json:], a double quote, a group of any
    number of characters other than the double quote, a double quote, one
    space, [db:], a double quote, a second such group, a double quote. *)

(** A literal of the pattern: [Some rest] when [s] starts with [pat]. *)
Fixpoint strip_prefix (pat s : str) : option str :=
  match pat, s with
  | [], _ => Some s
  | _ :: _, [] => None
  | p :: pat', c :: s' => if Ascii.eqb p c then strip_prefix pat' s' else None
  end.

(** A greedy group of the pattern: the longest run of characters other than
    the double quote, and what follows it.  The class is negated, so it
    takes line breaks too.  What follows a group in the pattern is a double
    quote, which the group cannot contain: giving characters back never
    helps, and the greedy split is the only one to try. *)
Fixpoint span_unquoted (s : str) : str * str :=
  match s with
  | [] => ([], [])
  | c :: s' =>
      if Ascii.eqb c dquote then ([], s)
      else let (g, r) := span_unquoted s' in (c :: g, r)
  end.

Definition pat_open : str := lit "json:" ++ [dquote].
Definition pat_middle : str := dquote :: lit " db:" ++ [dquote].
Definition pat_close : str := [dquote].

(** A match anchored at the head of [s]: the two groups and the text after
    the match. *)
Definition match_at (s : str) : option (str * str * str) :=
  match strip_prefix pat_open s with
  | None => None
  | Some s1 =>
      let (json_val, s2) := span_unquoted s1 in
      match strip_prefix pat_middle s2 with
      | None => None
      | Some s3 =>
          let (db_val, s4) := span_unquoted s3 in
          match strip_prefix pat_close s4 with
          | None => None
          | Some rest => Some (json_val, db_val, rest)
          end
      end
  end.

(** The text a match covers, by its two groups. *)
Definition matched_text (json_val db_val : str) : str :=
  json_tag json_val ++ space :: db_tag db_val.

(** The pieces [re.sub] cuts a text into: the characters outside every
    match, and the matches with their two groups. *)
Inductive piece : Type :=
  | Lit (c : ascii)
  | Hit (json_val db_val : str).

(** The leftmost, non-overlapping matches, left to right.  [skip] counts
    the characters still covered by the match found last; the pattern
    never matches the empty text. *)
Fixpoint scan_from (skip : nat) (s : str) : list piece :=
  match s with
  | [] => []
  | c :: s' =>
      match skip with
      | S k => scan_from k s'
      | O =>
          match match_at s with
          | Some (json_val, db_val, rest) =>
              Hit json_val db_val :: scan_from (length s' - length rest) s'
          | None => Lit c :: scan_from 0 s'
          end
      end
  end.

Definition scan (s : str) : list piece := scan_from 0 s.

Definition piece_source (p : piece) : str :=
  match p with
  | Lit c => [c]
  | Hit json_val db_val => matched_text json_val db_val
  end.

(** What a piece becomes in the rewritten text: a match keeps its two tags
    and gets the derived tag between them. *)
Definition piece_target (p : piece) : str :=
  match p with
  | Lit c => [c]
  | Hit json_val db_val =>
      json_tag json_val ++ space :: bson_tag (bson_val json_val db_val)
      ++ space :: db_tag db_val
  end.

Definition piece_subst (repl : str -> str -> str) (p : piece) : str :=
  match p with
  | Lit c => [c]
  | Hit json_val db_val => repl json_val db_val
  end.

(** [re.sub(pattern, repl, s)] with a callback [repl] over the groups. *)
Definition re_sub (repl : str -> str -> str) (s : str) : str :=
  flat_map (piece_subst repl) (scan s).

(** The number of matches of the pattern in [s]. *)
Definition is_hit (p : piece) : bool :=
  match p with Hit _ _ => true | Lit _ => false end.

Definition match_count (s : str) : nat := length (List.filter is_hit (scan s)).

(** [content = re.sub(..., replace_json_db, content)] *)
Definition rewrite (content : str) : str := re_sub replace_json_db content.

(** The marker of the skip guard and of the final count: [bson:] followed
    by a double quote. *)
Definition marker : str := lit "bson:" ++ [dquote].

(** [len(re.findall(marker, s))]: the non-overlapping occurrences of the
    marker, left to right. *)
Fixpoint count_from (skip : nat) (s : str) : nat :=
  match s with
  | [] => 0
  | _ :: s' =>
      match skip with
      | S k => count_from k s'
      | O =>
          if starts_with marker s then S (count_from (length marker - 1) s')
          else count_from 0 s'
      end
  end.

Definition marker_count (s : str) : nat := count_from 0 s.

(** ** Paths and the file selection *)

Definition model_dir : str := lit "/home/yun/wp/agents-admin/internal/shared/model".

(** [os.path.join(model_dir, name)]: [model_dir] has no trailing slash. *)
Definition path_join (dir name : str) : str := dir ++ slash :: name.

(** [os.path.basename(path)]: the text after the last slash. *)
Definition basename (path : str) : str := rev (first_component slash (rev path)).

(** A name is hidden when it starts with a dot. *)
Definition is_hidden (name : str) : bool := starts_with [dot] name.

(** [fnmatch] of a name against [*.go]: the star takes any text, the empty
    one too. *)
Definition fnmatch_go (name : str) : bool := ends_with (lit ".go") name.

(** [glob.glob(os.path.join(model_dir, '*.go'))].  [listing] is the list of
    the names in [model_dir], [None] when the directory cannot be listed
    (it does not exist, it is not a directory): [glob] swallows that error
    and yields nothing.  [glob] leaves hidden names out, since the pattern
    does not start with a dot itself, and joins each name it keeps to the
    directory. *)
Definition glob_go (listing : option (list str)) : list str :=
  match listing with
  | None => []
  | Some names =>
      map (path_join model_dir)
          (List.filter (fun name => negb (is_hidden name) && fnmatch_go name) names)
  end.

(** Comparison of two [str], character by character on the code points. *)
Fixpoint str_leb (a b : str) : bool :=
  match a, b with
  | [], _ => true
  | _ :: _, [] => false
  | x :: a', y :: b' =>
      if Ascii.eqb x y then str_leb a' b'
      else nat_of_ascii x <? nat_of_ascii y
  end.

Fixpoint insert_sorted (x : str) (l : list str) : list str :=
  match l with
  | [] => [x]
  | y :: l' => if str_leb x y then x :: l else y :: insert_sorted x l'
  end.

(** [sorted(l)] on a list of [str]. *)
Definition sorted (l : list str) : list str := fold_right insert_sorted [] l.

Definition test_suffix : str := lit "_test.go".

(** The paths the loop does not [continue] past: the file selection. *)
Definition selected_files (listing : option (list str)) : list str :=
  List.filter (fun filepath => negb (ends_with test_suffix filepath))
         (sorted (glob_go listing)).

(** ** The loop *)

(** The three lines the script prints, with the base name they carry. *)
Inductive report : Type :=
  | Skip (name : str)
  | Updated (name : str) (changes : nat)
  | NoChanges (name : str).

(** How a run ends: the loop is through, or [open] raised and nothing
    caught it. *)
Inductive exit : Type := Completed | Uncaught.

Definition carriage_return : ascii := ascii_of_nat 13.
Definition line_feed : ascii := ascii_of_nat 10.

(** What reading in text mode makes of the line ends: a carriage return
    becomes a line feed, and a line feed that follows a carriage return
    goes away with it.  [pending_cr] tells that the character before was
    a carriage return. *)
Fixpoint universal_newlines_from (pending_cr : bool) (s : str) : str :=
  match s with
  | [] => []
  | c :: s' =>
      if Ascii.eqb c carriage_return then
        line_feed :: universal_newlines_from true s'
      else if Ascii.eqb c line_feed && pending_cr then
        universal_newlines_from false s'
      else c :: universal_newlines_from false s'
  end.

Definition universal_newlines (s : str) : str := universal_newlines_from false s.

(** The state the loop works on: the files that can be opened and read,
    by path, with the text they hold; the lines printed so far; and the
    paths that cannot be opened for writing. *)
Record state : Type := mkState {
  disk : gmap str str;
  console : list report;
  read_only : gset str
}.

Definition print (r : report) (st : state) : state :=
  mkState (disk st) (console st ++ [r]) (read_only st).

(** [open(filepath)] and [f.read()]: [None] when one of them raises. *)
Definition read_file (filepath : str) (st : state) : option str :=
  universal_newlines <$> disk st !! filepath.

(** The state after [f.write(content)] went through.  The script runs on
    a system where the line end is the line feed: the text is written as
    it is. *)
Definition store (filepath content : str) (st : state) : state :=
  mkState (<[filepath := content]> (disk st)) (console st) (read_only st).

(** [open(filepath, 'w')] and [f.write(content)]: [None] when the file
    cannot be opened for writing; [open] then raises and the file is as
    it was. *)
Definition write_file (filepath content : str) (st : state) : option state :=
  if decide (filepath ∈ read_only st) then None
  else Some (store filepath content st).

(** The body of the loop for one path. *)
Definition visit (filepath : str) (st : state) : exit * state :=
  if ends_with test_suffix filepath then (Completed, st)
  else
    match read_file filepath st with
    | None => (Uncaught, st)
    | Some content =>
        if contains marker content then
          (Completed, print (Skip (basename filepath)) st)
        else
          let original := content in
          let content := rewrite content in
          if decide (content <> original) then
            match write_file filepath content st with
            | None => (Uncaught, st)
            | Some st =>
                let changes := marker_count content in
                (Completed, print (Updated (basename filepath) changes) st)
            end
          else
            (Completed, print (NoChanges (basename filepath)) st)
    end.

Fixpoint visit_all (paths : list str) (st : state) : exit * state :=
  match paths with
  | [] => (Completed, st)
  | filepath :: paths' =>
      match visit filepath st with
      | (Completed, st') => visit_all paths' st'
      | (Uncaught, st') => (Uncaught, st')
      end
  end.

(** The script: one run over the directory. *)
Definition main (listing : option (list str)) (st : state) : exit * state :=
  visit_all (sorted (glob_go listing)) st.

(** ** A sample directory *)

Definition demo_names : list str :=
  [lit "user.go"; lit "task.go"; lit "task_test.go"; lit "README.md"; lit ".swap.go"].

Definition demo_disk : gmap str str :=
  <[path_join model_dir (lit "user.go") := json_tag (lit "id") ++ space :: db_tag (lit "id")]>
  (<[path_join model_dir (lit "task.go") := lit "package model"]> ∅).

(** ** Notions of the statements *)

(** What the line printed for a file becomes on the next run: a file that
    was updated carries the marker from then on. *)
Definition calm (r : report) : report :=
  match r with
  | Updated name _ => Skip name
  | Skip name => Skip name
  | NoChanges name => NoChanges name
  end.

(** A path the loop body leaves as it is: a test file, a file that
    cannot be written or cannot be read, or a text that, as it is read,
    carries the marker or is not changed by the rewrite. *)
Definition quiet (st : state) (filepath : str) : Prop :=
  ends_with test_suffix filepath = true \/
  filepath ∈ read_only st \/
  match read_file filepath st with
  | None => True
  | Some content => contains marker content = true \/ rewrite content = content
  end.

(** The names the selection keeps: no hidden name, no test file, and the
    extension [.go]. *)
Definition keeps (name : str) : bool :=
  negb (is_hidden name) && fnmatch_go name && negb (ends_with test_suffix name).

(** The six ways through the loop body; [content] is the text as it is
    read. *)
Inductive visit_case (filepath : str) (st : state) : exit * state -> Prop :=
  | visit_is_test :
      ends_with test_suffix filepath = true ->
      visit_case filepath st (Completed, st)
  | visit_is_unreadable :
      ends_with test_suffix filepath = false ->
      read_file filepath st = None ->
      visit_case filepath st (Uncaught, st)
  | visit_is_marked content :
      ends_with test_suffix filepath = false ->
      read_file filepath st = Some content ->
      contains marker content = true ->
      visit_case filepath st (Completed, print (Skip (basename filepath)) st)
  | visit_is_unchanged content :
      ends_with test_suffix filepath = false ->
      read_file filepath st = Some content ->
      contains marker content = false ->
      rewrite content = content ->
      visit_case filepath st (Completed, print (NoChanges (basename filepath)) st)
  | visit_is_refused content :
      ends_with test_suffix filepath = false ->
      read_file filepath st = Some content ->
      contains marker content = false ->
      rewrite content <> content ->
      filepath ∈ read_only st ->
      visit_case filepath st (Uncaught, st)
  | visit_is_changed content :
      ends_with test_suffix filepath = false ->
      read_file filepath st = Some content ->
      contains marker content = false ->
      rewrite content <> content ->
      filepath ∉ read_only st ->
      visit_case filepath st
        (Completed,
         print (Updated (basename filepath) (marker_count (rewrite content)))
               (store filepath (rewrite content) st)).

(** The documentation's account of a second run, in its words: the second
    run leaves every file as the first run left it, and reports every file
    of the selection as skipped. *)
Definition rerun_all_skipped
    (listing : option (list str)) (d : gmap str str) (ro : gset str) : Prop :=
  let first := main listing (mkState d [] ro) in
  let second := main listing (mkState (disk (snd first)) [] ro) in
  disk (snd second) = disk (snd first)
  /\ console (snd second)
     = map (fun filepath => Skip (basename filepath)) (selected_files listing).

Definition str_le (a b : str) : Prop := str_leb a b = true.

(** The documentation's account of the selection, in its words: every
    name of the directory with the extension [.go] that is not a test file
    is selected. *)
Definition selects_all_go_files (names : list str) : Prop :=
  forall name,
    In name names ->
    ends_with (lit ".go") name = true ->
    ends_with test_suffix name = false ->
    In (path_join model_dir name) (selected_files (Some names)).

(** The start of a secondary tag: [db:] and a double quote. *)
Definition db_open : str := lit "db:" ++ [dquote].

(** [tags_inserted s s']: [s'] is [s] with derived tags inserted, and with
    nothing else changed.  A derived tag and the space after it come in
    only after a double quote and a space, and before the start of a
    secondary tag. *)
Inductive tags_inserted : str -> str -> Prop :=
  | inserted_nil : tags_inserted [] []
  | inserted_keep c s s' :
      tags_inserted s s' -> tags_inserted (c :: s) (c :: s')
  | inserted_tag v s s' :
      starts_with db_open s = true ->
      tags_inserted s s' ->
      tags_inserted (dquote :: space :: s)
                    (dquote :: space :: bson_tag v ++ space :: s').

(** The documentation's account of a badly spaced pair, in its words: the
    pair is not matched and goes through the rewrite unchanged, whatever
    the text around it. *)
Definition passes_through (pre pair post : str) : Prop :=
  match_at (pair ++ post) = None
  /\ exists before after, rewrite (pre ++ pair ++ post) = before ++ pair ++ after.

(** A match whose derived value ends in [bson:]: the double quote that
    closes the derived tag then makes one marker more. *)
Definition overshoots (p : piece) : bool :=
  match p with
  | Lit _ => false
  | Hit json_val db_val => ends_with (lit "bson:") (bson_val json_val db_val)
  end.

Definition overshoot (s : str) : nat := length (List.filter overshoots (scan s)).

(** ** Notions of the further statements *)

(** What the loop body leaves in a file it could read and, where it has
    to, write: the text itself when, as it is read, it carries the marker
    or is not changed by the rewrite, and otherwise the rewrite of the
    text as it is read. *)
Definition settle (raw : str) : str :=
  if contains marker (universal_newlines raw) then raw
  else if decide (rewrite (universal_newlines raw) = universal_newlines raw) then raw
  else rewrite (universal_newlines raw).


(** The base name a printed line carries. *)
Definition report_name (r : report) : str :=
  match r with
  | Skip name => name
  | Updated name _ => name
  | NoChanges name => name
  end.

(** The characters a piece gains in the rewrite: for a match, the derived
    tag and one space. *)
Definition piece_growth (p : piece) : nat :=
  match p with
  | Lit _ => 0
  | Hit json_val db_val => length (bson_tag (bson_val json_val db_val)) + 1
  end.

Definition growth (s : str) : nat := list_sum (map piece_growth (scan s)).

(** * Properties *)

(** Two texts that differ by the nesting of their concatenations only. *)
Ltac same_text :=
  repeat (rewrite <- ?app_assoc, <- ?app_comm_cons; cbn [app]); reflexivity.

(** A character that a given literal text does not hold. *)
Ltac absent_from_literal := vm_compute; intuition discriminate.

(** ** The script on sample inputs *)

Example replace_id :
  replace_json_db (lit "id") (lit "id")
  = json_tag (lit "id") ++ space :: bson_tag (lit "_id") ++ space :: db_tag (lit "id").
Proof. vm_compute. reflexivity. Qed.

Example replace_hidden :
  bson_val (lit "-") (lit "yyy,omitempty") = lit "yyy".
Proof. vm_compute. reflexivity. Qed.

Example replace_omit :
  bson_val (lit "xxx,omitempty") (lit "yyy") = lit "xxx,omitempty".
Proof. vm_compute. reflexivity. Qed.

Example rewrite_two_fields :
  rewrite (lit "ID string `" ++ json_tag (lit "id") ++ space :: db_tag (lit "id")
           ++ lit "` Pw string `" ++ json_tag (lit "-") ++ space :: db_tag (lit "pw_hash") ++ lit "`")
  = lit "ID string `" ++ json_tag (lit "id") ++ space :: bson_tag (lit "_id") ++ space :: db_tag (lit "id")
    ++ lit "` Pw string `" ++ json_tag (lit "-") ++ space :: bson_tag (lit "pw_hash") ++ space :: db_tag (lit "pw_hash") ++ lit "`".
Proof. vm_compute. reflexivity. Qed.

Example count_two :
  marker_count (bson_tag (lit "a") ++ lit " x " ++ bson_tag (lit "b")) = 2.
Proof. vm_compute. reflexivity. Qed.

Example demo_selected :
  selected_files (Some demo_names)
  = [path_join model_dir (lit "task.go"); path_join model_dir (lit "user.go")].
Proof. vm_compute. reflexivity. Qed.

Example demo_console :
  console (snd (main (Some demo_names) (mkState demo_disk [] ∅)))
  = [NoChanges (lit "task.go"); Updated (lit "user.go") 1].
Proof. vm_compute. reflexivity. Qed.

Example omitempty_in_later_component :
  bson_val (lit "name,foo,omitempty") (lit "name") = lit "name,omitempty".
Proof. vm_compute. reflexivity. Qed.

Example rewrite_modifier_alone :
  rewrite (matched_text (lit ",omitempty") (lit "x"))
  = json_tag (lit ",omitempty") ++ space :: bson_tag (lit ",omitempty")
    ++ space :: db_tag (lit "x").
Proof. vm_compute. reflexivity. Qed.

Example rewrite_two_spaces :
  rewrite (json_tag (lit "a") ++ lit "  " ++ db_tag (lit "a"))
  = json_tag (lit "a") ++ lit "  " ++ db_tag (lit "a").
Proof. vm_compute. reflexivity. Qed.

Example read_crlf :
  universal_newlines (lit "a" ++ [carriage_return; line_feed] ++ lit "b"
                      ++ [carriage_return] ++ lit "c" ++ [line_feed])
  = lit "a" ++ [line_feed] ++ lit "b" ++ [line_feed] ++ lit "c" ++ [line_feed].
Proof. vm_compute. reflexivity. Qed.

Example update_crlf_file :
  disk (snd (visit (path_join model_dir (lit "user.go"))
               (mkState {[ path_join model_dir (lit "user.go")
                           := matched_text (lit "id") (lit "id")
                              ++ [carriage_return; line_feed] ]} [] ∅)))
    !! path_join model_dir (lit "user.go")
  = Some (json_tag (lit "id") ++ space :: bson_tag (lit "_id") ++ space
          :: db_tag (lit "id") ++ [line_feed]).
Proof. vm_compute. reflexivity. Qed.

Example update_read_only_file :
  visit (path_join model_dir (lit "user.go"))
        (mkState {[ path_join model_dir (lit "user.go")
                    := matched_text (lit "id") (lit "id") ]} []
                 {[ path_join model_dir (lit "user.go") ]})
  = (Uncaught,
     mkState {[ path_join model_dir (lit "user.go")
                := matched_text (lit "id") (lit "id") ]} []
             {[ path_join model_dir (lit "user.go") ]}).
Proof. vm_compute. reflexivity. Qed.

Example skip_read_only_file :
  console (snd (visit (path_join model_dir (lit "user.go"))
                  (mkState {[ path_join model_dir (lit "user.go")
                              := bson_tag (lit "_id") ]} []
                           {[ path_join model_dir (lit "user.go") ]})))
  = [Skip (lit "user.go")].
Proof. vm_compute. reflexivity. Qed.

(** ** Text primitives *)

Lemma starts_with_iff (pat s : str) :
  starts_with pat s = true <-> exists r, s = pat ++ r.
Proof.
  revert s. induction pat as [|p pat IH]; intros s; simpl.
  - split; [intros _; exists s; reflexivity | reflexivity].
  - destruct s as [|c s]; simpl.
    + split; [discriminate | intros [r Hr]; discriminate].
    + rewrite andb_true_iff, Ascii.eqb_eq, IH. split.
      * intros [-> [r ->]]. exists r. reflexivity.
      * intros [r Hr]. injection Hr as -> ->. split; [reflexivity | exists r; reflexivity].
Qed.

Lemma starts_with_app (pat r : str) : starts_with pat (pat ++ r) = true.
Proof. apply starts_with_iff. exists r. reflexivity. Qed.

Lemma strip_prefix_iff (pat s r : str) :
  strip_prefix pat s = Some r <-> s = pat ++ r.
Proof.
  revert s. induction pat as [|p pat IH]; intros s; simpl.
  - split; [intros [= ->]; reflexivity | intros ->; reflexivity].
  - destruct s as [|c s]; simpl.
    + split; discriminate.
    + destruct (Ascii.eqb p c) eqn:E.
      * apply Ascii.eqb_eq in E as ->. rewrite IH. split.
        -- intros ->. reflexivity.
        -- intros [= ->]. reflexivity.
      * apply Ascii.eqb_neq in E. split; [discriminate | intros [= -> _]; contradiction].
Qed.

Lemma strip_prefix_app (pat r : str) : strip_prefix pat (pat ++ r) = Some r.
Proof. apply strip_prefix_iff. reflexivity. Qed.

Lemma contains_iff (pat s : str) :
  contains pat s = true <-> exists a b, s = a ++ pat ++ b.
Proof.
  induction s as [|c s IH].
  - simpl. rewrite orb_false_r, starts_with_iff. split.
    + intros [r Hr]. exists [], r. exact Hr.
    + intros [a [b H]]. destruct a; [exists b; exact H | discriminate].
  - cbn [contains]. rewrite orb_true_iff, starts_with_iff, IH. split.
    + intros [[r Hr] | [a [b H]]].
      * exists [], r. exact Hr.
      * exists (c :: a), b. simpl. rewrite H. reflexivity.
    + intros [a [b H]]. destruct a as [|x a].
      * left. exists b. exact H.
      * right. injection H as -> ->. exists a, b. reflexivity.
Qed.

Lemma contains_app (a pat b : str) : contains pat (a ++ pat ++ b) = true.
Proof. apply contains_iff. exists a, b. reflexivity. Qed.

Lemma contains_false_app_r (pat a b : str) :
  contains pat (a ++ b) = false -> contains pat b = false.
Proof.
  intros H. destruct (contains pat b) eqn:E; [|reflexivity].
  apply contains_iff in E as [x [y ->]].
  rewrite <- H. symmetry. apply contains_iff. exists (a ++ x), y.
  rewrite <- app_assoc. reflexivity.
Qed.

Lemma first_component_unsep (sep : ascii) (s : str) :
  ~ In sep (first_component sep s).
Proof.
  induction s as [|c s IH]; simpl; [tauto|].
  destruct (Ascii.eqb c sep) eqn:E; simpl; [tauto|].
  apply Ascii.eqb_neq in E. intros [H | H]; [contradiction | exact (IH H)].
Qed.

Lemma first_component_app (sep : ascii) (a b : str) :
  ~ In sep a -> first_component sep (a ++ sep :: b) = a.
Proof.
  induction a as [|c a IH]; simpl; intros H.
  - rewrite Ascii.eqb_refl. reflexivity.
  - destruct (Ascii.eqb c sep) eqn:E.
    + apply Ascii.eqb_eq in E. exfalso. apply H. left. exact E.
    + f_equal. apply IH. intros Hin. apply H. right. exact Hin.
Qed.

Lemma first_component_whole (sep : ascii) (a : str) :
  ~ In sep a -> first_component sep a = a.
Proof.
  induction a as [|c a IH]; simpl; intros H; [reflexivity|].
  destruct (Ascii.eqb c sep) eqn:E.
  - apply Ascii.eqb_eq in E. exfalso. apply H. left. exact E.
  - f_equal. apply IH. intros Hin. apply H. right. exact Hin.
Qed.

(** A text with no comma in it has no [,omitempty] in it. *)
Lemma contains_needs (c : ascii) (pat s : str) :
  In c pat -> ~ In c s -> contains pat s = false.
Proof.
  intros Hc Hs. destruct (contains pat s) eqn:E; [|reflexivity].
  apply contains_iff in E as [a [b ->]]. exfalso. apply Hs.
  apply in_or_app. right. apply in_or_app. left. exact Hc.
Qed.

(** ** The pattern *)

Lemma span_unquoted_split (s g r : str) :
  span_unquoted s = (g, r) ->
  s = g ++ r /\ ~ In dquote g /\ starts_with [dquote] r = negb (length r =? 0).
Proof.
  revert g r. induction s as [|c s IH]; simpl; intros g r H.
  - injection H as <- <-. simpl. tauto.
  - destruct (Ascii.eqb c dquote) eqn:E.
    + injection H as <- <-. apply Ascii.eqb_eq in E as ->. simpl. tauto.
    + destruct (span_unquoted s) as [g' r'] eqn:Es. injection H as <- <-.
      destruct (IH g' r' eq_refl) as (-> & Hg & Hr).
      apply Ascii.eqb_neq in E. repeat split; [|exact Hr].
      intros [Hin | Hin]; [congruence | exact (Hg Hin)].
Qed.

Lemma span_unquoted_app (g r : str) :
  ~ In dquote g -> span_unquoted (g ++ dquote :: r) = (g, dquote :: r).
Proof.
  induction g as [|c g IH]; simpl; intros H.
  - reflexivity.
  - destruct (Ascii.eqb c dquote) eqn:E.
    + apply Ascii.eqb_eq in E. exfalso. apply H. left. exact E.
    + rewrite IH; [reflexivity|]. intros Hin. apply H. right. exact Hin.
Qed.

Lemma matched_text_shape (a b rest : str) :
  matched_text a b ++ rest = pat_open ++ a ++ pat_middle ++ b ++ pat_close ++ rest.
Proof.
  unfold matched_text, json_tag, db_tag, pat_open, pat_middle, pat_close.
  change (lit " db:") with (space :: lit "db:").
  same_text.
Qed.

Lemma match_at_sound (s a b rest : str) :
  match_at s = Some (a, b, rest) ->
  s = matched_text a b ++ rest /\ ~ In dquote a /\ ~ In dquote b.
Proof.
  unfold match_at. intros H.
  destruct (strip_prefix pat_open s) as [s1|] eqn:E1; [|discriminate].
  destruct (span_unquoted s1) as [g1 s2] eqn:E2.
  destruct (strip_prefix pat_middle s2) as [s3|] eqn:E3; [|discriminate].
  destruct (span_unquoted s3) as [g2 s4] eqn:E4.
  destruct (strip_prefix pat_close s4) as [s5|] eqn:E5; [|discriminate].
  injection H as <- <- <-.
  apply strip_prefix_iff in E1, E3, E5.
  apply span_unquoted_split in E2 as (-> & Hg1 & _).
  apply span_unquoted_split in E4 as (-> & Hg2 & _).
  subst. rewrite matched_text_shape. tauto.
Qed.

Lemma match_at_complete (a b rest : str) :
  ~ In dquote a -> ~ In dquote b ->
  match_at (matched_text a b ++ rest) = Some (a, b, rest).
Proof.
  intros Ha Hb. rewrite matched_text_shape. unfold match_at.
  rewrite strip_prefix_app.
  change (pat_middle ++ b ++ pat_close ++ rest)
    with (dquote :: (lit " db:" ++ [dquote]) ++ b ++ pat_close ++ rest).
  rewrite (span_unquoted_app a _ Ha).
  change (dquote :: (lit " db:" ++ [dquote]) ++ b ++ pat_close ++ rest)
    with (pat_middle ++ b ++ dquote :: rest).
  rewrite strip_prefix_app, (span_unquoted_app b _ Hb).
  reflexivity.
Qed.

(** ** The scan *)

Lemma scan_from_skip (x r : str) : scan_from (length x) (x ++ r) = scan r.
Proof. induction x as [|c x IH]; simpl; [reflexivity | exact IH]. Qed.

Lemma scan_nil : scan [] = [].
Proof. reflexivity. Qed.

Lemma scan_lit (c : ascii) (s : str) :
  match_at (c :: s) = None -> scan (c :: s) = Lit c :: scan s.
Proof. intros H. unfold scan. cbn [scan_from]. rewrite H. reflexivity. Qed.

Lemma scan_hit (s a b rest : str) :
  match_at s = Some (a, b, rest) -> scan s = Hit a b :: scan rest.
Proof.
  intros H. pose proof (match_at_sound _ _ _ _ H) as (Hs & _ & _).
  destruct s as [|c s']; [discriminate|].
  unfold scan. cbn [scan_from]. rewrite H. f_equal.
  assert (Hx : exists x, s' = x ++ rest).
  { destruct (matched_text a b) as [|c' x] eqn:Em; [discriminate|].
    injection Hs as _ Hs. exists x. exact Hs. }
  destruct Hx as (x & ->).
  replace (length (x ++ rest) - length rest) with (length x)
    by (rewrite length_app; lia).
  apply scan_from_skip.
Qed.

(** Induction along the scan: a character outside every match, or a match
    and the text after it. *)
Lemma scan_ind (P : str -> Prop) :
  P [] ->
  (forall c s, match_at (c :: s) = None -> P s -> P (c :: s)) ->
  (forall s a b rest, match_at s = Some (a, b, rest) -> P rest -> P s) ->
  forall s, P s.
Proof.
  intros Hnil Hlit Hhit s.
  remember (length s) as n eqn:Hn. revert s Hn.
  induction n as [n IH] using lt_wf_ind. intros s Hn.
  destruct s as [|c s]; [exact Hnil|].
  destruct (match_at (c :: s)) as [[[a b] rest]|] eqn:E.
  - apply (Hhit _ _ _ _ E).
    apply match_at_sound in E as (Hs & _). 
    apply (IH (length rest)); [|reflexivity].
    subst n. rewrite Hs, length_app. unfold matched_text, json_tag. simpl. lia.
  - apply (Hlit _ _ E). apply (IH (length s)); [|reflexivity]. subst n. simpl. lia.
Qed.

Lemma scan_source (s : str) : flat_map piece_source (scan s) = s.
Proof.
  induction s as [|c s E IH|s a b rest E IH] using scan_ind.
  - reflexivity.
  - rewrite (scan_lit _ _ E). simpl. rewrite IH. reflexivity.
  - rewrite (scan_hit _ _ _ _ E). cbn [flat_map piece_source]. rewrite IH.
    apply match_at_sound in E as (-> & _). reflexivity.
Qed.

Lemma rewrite_nil : rewrite [] = [].
Proof. reflexivity. Qed.

Lemma rewrite_lit (c : ascii) (s : str) :
  match_at (c :: s) = None -> rewrite (c :: s) = c :: rewrite s.
Proof. intros H. unfold rewrite, re_sub. rewrite (scan_lit _ _ H). reflexivity. Qed.

Lemma rewrite_hit (s a b rest : str) :
  match_at s = Some (a, b, rest) -> rewrite s = replace_json_db a b ++ rewrite rest.
Proof. intros H. unfold rewrite, re_sub. rewrite (scan_hit _ _ _ _ H). reflexivity. Qed.

Lemma ends_with_iff (pat s : str) :
  ends_with pat s = true <-> exists a, s = a ++ pat.
Proof.
  unfold ends_with. rewrite starts_with_iff. split.
  - intros [r Hr]. exists (rev r).
    rewrite <- (rev_involutive s), Hr, rev_app_distr, rev_involutive. reflexivity.
  - intros [a ->]. exists (rev a). apply rev_app_distr.
Qed.

Lemma ends_with_app (a pat : str) : ends_with pat (a ++ pat) = true.
Proof. apply ends_with_iff. exists a. reflexivity. Qed.

Lemma ends_with_contains (pat s : str) :
  ends_with pat s = true -> contains pat s = true.
Proof.
  intros H. apply ends_with_iff in H as [a ->]. apply contains_iff.
  exists a, []. rewrite app_nil_r. reflexivity.
Qed.

(** A way to check on a given text that it holds no double quote. *)
Lemma unquoted_by_contains (v : str) :
  contains [dquote] v = false -> ~ In dquote v.
Proof.
  intros Hv Hin. apply in_split in Hin as (a & b & ->).
  change (a ++ dquote :: b) with (a ++ [dquote] ++ b) in Hv.
  rewrite contains_app in Hv. discriminate.
Qed.

(** ** The replacement callback *)

Lemma replace_json_db_tags (json_val db_val : str) :
  replace_json_db json_val db_val
  = json_tag json_val ++ space :: bson_tag (bson_val json_val db_val)
    ++ space :: db_tag db_val.
Proof.
  unfold replace_json_db, json_tag, bson_tag, db_tag.
  change (lit " bson:") with (space :: lit "bson:").
  change (lit " db:") with (space :: lit "db:").
  same_text.
Qed.

Lemma bson_name_uncomma (json_val db_val : str) :
  ~ In comma (bson_name json_val db_val).
Proof.
  unfold bson_name, json_name.
  destruct (decide _); [apply first_component_unsep|].
  destruct (decide _); [|apply first_component_unsep].
  absent_from_literal.
Qed.

Lemma comma_in_omitempty : In comma omitempty_suffix.
Proof. left. reflexivity. Qed.

Lemma bson_val_modifier (json_val db_val : str) :
  ends_with omitempty_suffix (bson_val json_val db_val) = omitempty json_val.
Proof.
  unfold bson_val. destruct (omitempty json_val).
  - apply ends_with_app.
  - rewrite app_nil_r.
    destruct (ends_with _ _) eqn:E; [|reflexivity].
    apply ends_with_contains in E.
    rewrite (contains_needs comma) in E; [discriminate | apply comma_in_omitempty |].
    apply bson_name_uncomma.
Qed.

(** C1. For a matched occurrence, the derived tag stands between the two
    tags of the occurrence, and its value is the derived name followed by
    the modifier.  The name follows the precedence: when the first
    comma-separated component of the primary value is a dash, the name is
    the first component of the secondary value; otherwise, when that
    component is [id], the name is [_id]; otherwise the name is that
    component.  The derived value carries [,omitempty] exactly when the
    primary value contains it, and a secondary value with the same first
    component gives the same derived value, whatever its modifier. *)
Theorem derived_name_precedence (s json_val db_val rest : str) :
  match_at s = Some (json_val, db_val, rest) ->
  let field := first_component comma json_val in
  let name := bson_name json_val db_val in
  let value := bson_val json_val db_val in
  rewrite s = json_tag json_val ++ space :: bson_tag value
               ++ space :: db_tag db_val ++ rewrite rest
  /\ (field = lit "-" -> name = first_component comma db_val)
  /\ (field <> lit "-" -> field = lit "id" -> name = lit "_id")
  /\ (field <> lit "-" -> field <> lit "id" -> name = field)
  /\ (contains omitempty_suffix json_val = true -> value = name ++ omitempty_suffix)
  /\ (contains omitempty_suffix json_val = false -> value = name)
  /\ ends_with omitempty_suffix value = contains omitempty_suffix json_val
  /\ (forall db_val',
        first_component comma db_val' = first_component comma db_val ->
        bson_val json_val db_val' = value).
Proof.
  intros H field name value. subst field name value.
  split.
  { rewrite (rewrite_hit _ _ _ _ H), replace_json_db_tags.
    same_text. }
  unfold bson_val, bson_name, json_name, omitempty.
  repeat split.
  - intros E. destruct (decide _); [reflexivity | contradiction].
  - intros N E. destruct (decide _); [contradiction|].
    destruct (decide _); [reflexivity | contradiction].
  - intros N1 N2. destruct (decide _); [contradiction|].
    destruct (decide _); [contradiction | reflexivity].
  - intros ->. reflexivity.
  - intros ->. apply app_nil_r.
  - apply bson_val_modifier.
  - intros db_val' E. rewrite E. reflexivity.
Qed.

Lemma derived_name_precedence_witness :
  match_at (matched_text (lit "-") (lit "pw_hash,omitempty"))
  = Some (lit "-", lit "pw_hash,omitempty", [])
  /\ bson_name (lit "-") (lit "pw_hash,omitempty") = lit "pw_hash"
  /\ bson_val (lit "-") (lit "pw_hash,omitempty") = lit "pw_hash".
Proof.
  pose proof (derived_name_precedence
                (matched_text (lit "-") (lit "pw_hash,omitempty"))
                (lit "-") (lit "pw_hash,omitempty") [] eq_refl)
    as (_ & Hdash & _ & _ & _ & Hplain & _).
  split; [reflexivity|]. split.
  - apply Hdash. reflexivity.
  - rewrite Hplain; [apply Hdash|]; reflexivity.
Defined.

(** C2. The text is the concatenation of its pieces, and the rewritten
    text is the concatenation of the same pieces in the same order, where
    each character outside the matches stands as it is and each match, the
    primary tag, one space and the secondary tag, has become the primary
    tag, one space, the derived tag, one space and the secondary tag. *)
Theorem rewrite_inserts_between (content : str) :
  content = flat_map piece_source (scan content)
  /\ rewrite content = flat_map piece_target (scan content)
  /\ (forall json_val db_val,
        piece_source (Hit json_val db_val)
        = json_tag json_val ++ [space] ++ db_tag db_val
        /\ piece_target (Hit json_val db_val)
           = json_tag json_val ++ [space] ++ bson_tag (bson_val json_val db_val)
             ++ [space] ++ db_tag db_val)
  /\ (forall c, piece_source (Lit c) = [c] /\ piece_target (Lit c) = [c]).
Proof.
  split; [symmetry; apply scan_source|]. split.
  - unfold rewrite, re_sub. apply flat_map_ext. intros [c|a b]; simpl.
    + reflexivity.
    + apply replace_json_db_tags.
  - split; intros; split; reflexivity.
Qed.

(** C9. The modifier is found by containment: for a matched occurrence
    whose primary value contains [,omitempty] anywhere, as the start of a
    longer token or in a later component too, the derived value is the
    derived name followed by [,omitempty], and the derived tag with that
    value stands between the two tags in the rewritten text. *)
Theorem omitempty_by_containment (s json_val db_val rest : str) :
  match_at s = Some (json_val, db_val, rest) ->
  contains omitempty_suffix json_val = true ->
  bson_val json_val db_val = bson_name json_val db_val ++ omitempty_suffix
  /\ ends_with omitempty_suffix (bson_val json_val db_val) = true
  /\ rewrite s
     = json_tag json_val ++ space
       :: bson_tag (bson_name json_val db_val ++ omitempty_suffix)
       ++ space :: db_tag db_val ++ rewrite rest.
Proof.
  intros Hm Hc.
  assert (Hv : bson_val json_val db_val = bson_name json_val db_val ++ omitempty_suffix).
  { unfold bson_val, omitempty. rewrite Hc. reflexivity. }
  split; [exact Hv|]. split.
  - rewrite Hv. apply ends_with_app.
  - rewrite (rewrite_hit _ _ _ _ Hm), replace_json_db_tags, Hv.
    same_text.
Qed.

Lemma omitempty_by_containment_witness :
  contains omitempty_suffix (lit "name,omitemptyextra") = true
  /\ bson_val (lit "name,omitemptyextra") (lit "name") = lit "name,omitempty"
  /\ rewrite (matched_text (lit "name,omitemptyextra") (lit "name"))
     = json_tag (lit "name,omitemptyextra") ++ space
       :: bson_tag (lit "name,omitempty") ++ space :: db_tag (lit "name").
Proof.
  pose proof (omitempty_by_containment
                (matched_text (lit "name,omitemptyextra") (lit "name"))
                (lit "name,omitemptyextra") (lit "name") [] eq_refl eq_refl)
    as (Hv & _ & Hr).
  split; [reflexivity|]. split.
  - rewrite Hv. reflexivity.
  - rewrite Hr. reflexivity.
Defined.

(** C10. An occurrence whose primary value is empty, or starts with a
    comma, still matches and is rewritten: the field name is empty, it is
    neither the dash nor [id], so the derived name is empty and the derived
    tag holds the modifier alone, or nothing. *)
Theorem empty_field_name (json_val db_val rest : str) :
  json_val = [] \/ (exists t, json_val = comma :: t) ->
  ~ In dquote json_val -> ~ In dquote db_val ->
  match_at (matched_text json_val db_val ++ rest) = Some (json_val, db_val, rest)
  /\ json_name json_val = []
  /\ bson_name json_val db_val = []
  /\ rewrite (matched_text json_val db_val ++ rest)
     = json_tag json_val ++ space
       :: bson_tag (if contains omitempty_suffix json_val then omitempty_suffix else [])
       ++ space :: db_tag db_val ++ rewrite rest.
Proof.
  intros Hj Hq1 Hq2.
  assert (Hn : json_name json_val = []).
  { destruct Hj as [-> | [t ->]]; reflexivity. }
  assert (Hb : bson_name json_val db_val = []).
  { unfold bson_name. rewrite Hn.
    destruct (decide _) as [E|_]; [discriminate E|].
    destruct (decide _) as [E|_]; [discriminate E | reflexivity]. }
  pose proof (match_at_complete _ _ rest Hq1 Hq2) as Hm.
  repeat split; try assumption.
  rewrite (rewrite_hit _ _ _ _ Hm), replace_json_db_tags.
  unfold bson_val, omitempty. rewrite Hb.
  same_text.
Qed.

Lemma empty_field_name_witness :
  rewrite (matched_text [] (lit "x"))
  = json_tag [] ++ space :: bson_tag [] ++ space :: db_tag (lit "x").
Proof.
  pose proof (empty_field_name [] (lit "x") [] (or_introl eq_refl)
                (unquoted_by_contains [] eq_refl)
                (unquoted_by_contains (lit "x") eq_refl)) as (_ & _ & _ & Hr).
  rewrite app_nil_r in Hr. rewrite Hr. reflexivity.
Defined.

(** ** Texts that hold no match *)

Lemma rewrite_no_match (content : str) :
  (forall a b, content = a ++ b -> match_at b = None) ->
  scan content = map Lit content /\ rewrite content = content.
Proof.
  induction content as [|c s IH]; intros H; [split; reflexivity|].
  assert (Hc : match_at (c :: s) = None) by (apply (H []); reflexivity).
  destruct IH as [IH1 IH2].
  { intros a b ->. apply (H (c :: a)). reflexivity. }
  split.
  - rewrite (scan_lit _ _ Hc), IH1. reflexivity.
  - rewrite (rewrite_lit _ _ Hc), IH2. reflexivity.
Qed.

Lemma split_at_quote (u u' v v' : str) :
  ~ In dquote u -> ~ In dquote u' ->
  u ++ dquote :: v = u' ++ dquote :: v' -> u = u' /\ v = v'.
Proof.
  intros Hu Hu' E.
  pose proof (span_unquoted_app u v Hu) as E1.
  rewrite E, (span_unquoted_app u' v' Hu') in E1.
  injection E1 as -> ->. split; reflexivity.
Qed.

Lemma unquoted_app (a b : str) :
  ~ In dquote a -> ~ In dquote b -> ~ In dquote (a ++ b).
Proof. intros Ha Hb Hin. apply in_app_or in Hin. tauto. Qed.

Lemma unquoted_lit_json : ~ In dquote (lit "json:").
Proof. absent_from_literal. Qed.

Lemma unquoted_lit_db : ~ In dquote (lit "db:").
Proof. absent_from_literal. Qed.

Lemma unquoted_lit_sp_db : ~ In dquote (lit " db:").
Proof. absent_from_literal. Qed.

Lemma unquoted_space : ~ In dquote [space].
Proof. absent_from_literal. Qed.

Create HintDb unquoted.

#[local] Hint Resolve unquoted_app unquoted_lit_json unquoted_lit_db
  unquoted_lit_sp_db unquoted_space : unquoted.

(** Where the first double quote of a text is. *)
Lemma quote_prefix (u a x y : str) :
  ~ In dquote u ->
  a ++ dquote :: x = u ++ dquote :: y ->
  (a = u /\ x = y) \/ (exists a', a = u ++ dquote :: a' /\ y = a' ++ dquote :: x).
Proof.
  revert a. induction u as [|c u IH]; intros a Hu E.
  - destruct a as [|c' a]; simpl in E.
    + left. injection E as ->. split; reflexivity.
    + right. injection E as -> E. exists a. split; [reflexivity | symmetry; exact E].
  - destruct a as [|c' a]; simpl in E.
    + injection E as <- _. exfalso. apply Hu. left. reflexivity.
    + injection E as -> E.
      destruct (IH a) as [[-> ->] | (a' & -> & ->)].
      * intros Hin. apply Hu. right. exact Hin.
      * exact E.
      * left. split; reflexivity.
      * right. exists a'. split; reflexivity.
Qed.

(** A tag pair with any separator, cut at its four double quotes. *)
Lemma pair_shape (pre g1 sep g2 post : str) :
  pre ++ json_tag g1 ++ sep ++ db_tag g2 ++ post
  = (pre ++ lit "json:") ++ dquote :: g1 ++ dquote :: (sep ++ lit "db:")
    ++ dquote :: g2 ++ dquote :: post.
Proof.
  unfold json_tag, db_tag.
  same_text.
Qed.

Lemma matched_text_pair (a b rest : str) :
  matched_text a b ++ rest = json_tag a ++ [space] ++ db_tag b ++ rest.
Proof.
  unfold matched_text. same_text.
Qed.

Lemma pair_quotes (pre g1 sep g2 post : str) :
  ~ In dquote g1 -> ~ In dquote sep -> ~ In dquote g2 ->
  count_occ ascii_dec (pre ++ json_tag g1 ++ sep ++ db_tag g2 ++ post) dquote
  = count_occ ascii_dec pre dquote + 4 + count_occ ascii_dec post dquote.
Proof.
  intros H1 Hs H2. apply (count_occ_not_In ascii_dec) in H1, Hs, H2.
  unfold json_tag, db_tag.
  repeat (rewrite ?count_occ_app, ?count_occ_cons_eq by reflexivity).
  rewrite H1, Hs, H2. change (count_occ ascii_dec (lit "json:") dquote) with 0.
  change (count_occ ascii_dec (lit "db:") dquote) with 0.
  simpl. lia.
Qed.

Ltac length_clash H :=
  apply (f_equal (@length ascii)) in H; unfold json_tag, db_tag in H;
  repeat (rewrite ?length_app in H; simpl in H); lia.

(** *** A primary and a secondary tag with something else than one space
    between them *)

Section BadlySpacedPair.

Variables g1 sep g2 : str.

Hypothesis unquoted_g1 : ~ In dquote g1.
Hypothesis unquoted_sep : ~ In dquote sep.
Hypothesis unquoted_g2 : ~ In dquote g2.
Hypothesis other_than_space : sep <> [space].

#[local] Hint Resolve unquoted_g1 unquoted_sep unquoted_g2 : unquoted.

(** The pattern does not match at the head of the pair. *)
Lemma badly_spaced_head (rest : str) :
  match_at (json_tag g1 ++ sep ++ db_tag g2 ++ rest) = None.
Proof.
  destruct (match_at _) as [[[x y] r]|] eqn:E; [exfalso | reflexivity].
  apply match_at_sound in E as (E & Hx & Hy).
  rewrite matched_text_pair in E.
  apply (f_equal (app [])) in E. rewrite !pair_shape in E.
  apply split_at_quote in E as [_ E]; [| auto with unquoted ..].
  apply split_at_quote in E as [_ E]; [| auto with unquoted ..].
  apply split_at_quote in E as [E _]; [| auto with unquoted ..].
  apply app_inv_tail in E. contradiction.
Qed.

(** Among texts without a double quote the pair holds no match at all:
    a match needs four double quotes, and the pair has four. *)
Lemma badly_spaced_anywhere (pre post a b : str) :
  ~ In dquote pre -> ~ In dquote post ->
  pre ++ json_tag g1 ++ sep ++ db_tag g2 ++ post = a ++ b ->
  match_at b = None.
Proof.
  intros Hpre Hpost Eab.
  destruct (match_at b) as [[[x y] r]|] eqn:E; [exfalso | reflexivity].
  apply match_at_sound in E as (-> & Hx & Hy).
  rewrite matched_text_pair in Eab.
  assert (Hq : ~ In dquote a).
  { apply (count_occ_not_In ascii_dec).
    apply (f_equal (fun t => count_occ ascii_dec t dquote)) in Eab.
    rewrite !pair_quotes in Eab; auto with unquoted.
    apply (count_occ_not_In ascii_dec) in Hpre, Hpost. lia. }
  rewrite !pair_shape in Eab.
  apply split_at_quote in Eab as [_ Eab]; [| auto with unquoted ..].
  apply split_at_quote in Eab as [_ Eab]; [| auto with unquoted ..].
  apply split_at_quote in Eab as [Eab _]; [| auto with unquoted ..].
  apply app_inv_tail in Eab. contradiction.
Qed.

Lemma badly_spaced_alone (pre post : str) :
  ~ In dquote pre -> ~ In dquote post ->
  rewrite (pre ++ json_tag g1 ++ sep ++ db_tag g2 ++ post)
  = pre ++ json_tag g1 ++ sep ++ db_tag g2 ++ post.
Proof.
  intros Hpre Hpost. apply rewrite_no_match. intros a b Eab.
  apply (badly_spaced_anywhere pre post a b); assumption.
Qed.

(** The pair holds no place for a derived tag: after none of its double
    quotes come a space and the start of a secondary tag. *)
Lemma pair_has_no_site (post a b : str) :
  g1 <> lit " db:" -> g2 <> lit " db:" ->
  json_tag g1 ++ sep ++ db_tag g2 = a ++ dquote :: space :: b ->
  starts_with db_open (b ++ post) = false.
Proof.
  intros N1 N2 Ea.
  destruct (starts_with db_open (b ++ post)) eqn:E; [exfalso | reflexivity].
  apply starts_with_iff in E as [r Er].
  assert (Et : [] ++ json_tag g1 ++ sep ++ db_tag g2 ++ post
               = a ++ dquote :: lit " db:" ++ dquote :: r).
  { change (lit " db:" ++ dquote :: r) with (space :: db_open ++ r).
    rewrite <- Er, app_nil_l.
    replace (json_tag g1 ++ sep ++ db_tag g2 ++ post)
      with ((json_tag g1 ++ sep ++ db_tag g2) ++ post)
      by (rewrite <- !app_assoc; reflexivity).
    rewrite Ea, <- app_assoc. reflexivity. }
  rewrite pair_shape, app_nil_l in Et. symmetry in Et.
  apply quote_prefix in Et as [[-> Et] | (a1 & -> & Et)]; [| | auto with unquoted].
  { symmetry in Et. apply split_at_quote in Et as [Et _];
      [congruence | auto with unquoted ..]. }
  symmetry in Et.
  apply quote_prefix in Et as [[-> Et] | (a2 & -> & Et)]; [| | auto with unquoted].
  { symmetry in Et. apply split_at_quote in Et as [Et _]; [| auto with unquoted ..].
    change (lit " db:") with ([space] ++ lit "db:") in Et.
    apply app_inv_tail in Et. contradiction. }
  symmetry in Et.
  apply quote_prefix in Et as [[-> Et] | (a3 & -> & Et)]; [| | auto with unquoted].
  { symmetry in Et. apply split_at_quote in Et as [Et _];
      [congruence | auto with unquoted ..]. }
  symmetry in Et.
  apply quote_prefix in Et as [[-> Et] | (a4 & -> & Et)]; [| | auto with unquoted].
  - length_clash Ea.
  - length_clash Ea.
Qed.

End BadlySpacedPair.

(** ** Insertions and what they leave in one piece *)

Lemma tags_inserted_app (x s s' : str) :
  tags_inserted s s' -> tags_inserted (x ++ s) (x ++ s').
Proof. intros H. induction x; simpl; [exact H | constructor; assumption]. Qed.

Lemma matched_text_site (a b rest : str) :
  matched_text a b ++ rest
  = (lit "json:" ++ dquote :: a) ++ dquote :: space :: (db_tag b ++ rest).
Proof.
  unfold matched_text, json_tag.
  same_text.
Qed.

Lemma replaced_text_site (a b v rest : str) :
  (json_tag a ++ space :: bson_tag v ++ space :: db_tag b) ++ rest
  = (lit "json:" ++ dquote :: a)
    ++ dquote :: space :: bson_tag v ++ space :: (db_tag b ++ rest).
Proof.
  unfold json_tag.
  same_text.
Qed.

Lemma db_tag_open (b rest : str) : starts_with db_open (db_tag b ++ rest) = true.
Proof.
  apply starts_with_iff. exists (b ++ dquote :: rest). unfold db_tag, db_open.
  same_text.
Qed.

(** The rewrite inserts derived tags and changes nothing else. *)
Lemma rewrite_tags_inserted (content : str) :
  tags_inserted content (rewrite content).
Proof.
  induction content as [|c s E IH|s a b rest E IH] using scan_ind.
  - constructor.
  - rewrite (rewrite_lit _ _ E). constructor. exact IH.
  - rewrite (rewrite_hit _ _ _ _ E), replace_json_db_tags.
    apply match_at_sound in E as (-> & _).
    rewrite matched_text_site, replaced_text_site.
    apply tags_inserted_app. apply inserted_tag.
    + apply db_tag_open.
    + apply tags_inserted_app. exact IH.
Qed.

Lemma starts_with_before (p x y : str) (c : ascii) :
  ~ In c p -> starts_with p (x ++ c :: y) = true -> starts_with p x = true.
Proof.
  revert x. induction p as [|q p IH]; intros x Hc H; [reflexivity|].
  destruct x as [|d x]; simpl in *.
  - apply andb_true_iff in H as [H _]. apply Ascii.eqb_eq in H.
    exfalso. apply Hc. left. exact H.
  - apply andb_true_iff in H as [-> H]. simpl. apply (IH x); [|exact H].
    intros Hin. apply Hc. right. exact Hin.
Qed.

(** A text with no place for a derived tag stays in one piece at the head
    of what the insertions give. *)
Lemma inserted_keeps_head (o post t' : str) :
  (forall a b, o = a ++ dquote :: space :: b ->
               starts_with db_open (b ++ post) = false) ->
  tags_inserted (o ++ post) t' ->
  exists after, t' = o ++ after.
Proof.
  revert t'. induction o as [|c o IH]; intros t' Hno H; [exists t'; reflexivity|].
  cbn [app] in H. inversion H as [|c' s s' Hs|v s s' Hopen Hs]; subst.
  - destruct (IH s') as [after ->]; [|exact Hs|exists after; reflexivity].
    intros a b ->. apply (Hno (c :: a) b). reflexivity.
  - destruct o as [|c' o]; cbn [app] in *.
    + subst post. eexists. reflexivity.
    + match goal with E : _ :: _ = _ :: _ |- _ => injection E as E1 E2 end.
      subst. rewrite (Hno [] o eq_refl) in Hopen. discriminate.
Qed.

Lemma inserted_keeps_pair (pre o post t' : str) (c : ascii) (o' : str) :
  o = c :: o' -> c <> space -> ~ In c db_open ->
  (forall a b, o = a ++ dquote :: space :: b ->
               starts_with db_open (b ++ post) = false) ->
  tags_inserted (pre ++ o ++ post) t' ->
  exists before after, t' = before ++ o ++ after /\ tags_inserted pre before.
Proof.
  intros Ho Hsp Hdb Hno H.
  remember (pre ++ o ++ post) as t eqn:Et. revert pre Et.
  induction H as [|d s s' Hs IH|v s s' Hopen Hs IH]; intros pre Et.
  - subst o. destruct pre; discriminate.
  - destruct pre as [|d' pre]; cbn [app] in Et.
    + destruct (inserted_keeps_head o post (d :: s')) as [after E];
        [exact Hno | rewrite <- Et; constructor; exact Hs |].
      exists [], after. split; [exact E | constructor].
    + injection Et as <- ->.
      destruct (IH pre eq_refl) as (before & after & -> & Hb).
      exists (d :: before), after. split; [reflexivity | constructor; exact Hb].
  - destruct pre as [|d1 pre]; cbn [app] in Et.
    + destruct (inserted_keeps_head o post (dquote :: space :: bson_tag v ++ space :: s'))
        as [after E]; [exact Hno | rewrite <- Et; apply inserted_tag; assumption |].
      exists [], after. split; [exact E | constructor].
    + injection Et as <- Et. destruct pre as [|d2 pre]; cbn [app] in Et.
      * subst o. injection Et as <- _. contradiction.
      * injection Et as <- ->.
        destruct (IH pre eq_refl) as (before & after & -> & Hb).
        exists (dquote :: space :: bson_tag v ++ space :: before), after. split.
        -- cbn [app]. rewrite <- !app_assoc. reflexivity.
        -- apply inserted_tag; [|exact Hb]. subst o.
           apply (starts_with_before _ _ _ _ Hdb Hopen).
Qed.

(** C8, as the code has it. The pattern wants exactly one space between
    the two tags.  A primary and a secondary tag separated by anything
    else that holds no double quote (a tab, two spaces, a line break,
    nothing at all) are not matched, whatever follows them.  When neither
    of the two values is the text made of a space and [db:], the pair
    stands in the rewritten text as it stood in the input, after the text
    before it with its derived tags inserted; and when the text around the
    pair holds no double quote, the whole text comes out as it went in. *)
Theorem single_space_required (pre json_val sep db_val post : str) :
  ~ In dquote json_val -> ~ In dquote sep -> ~ In dquote db_val ->
  sep <> [space] ->
  let pair := json_tag json_val ++ sep ++ db_tag db_val in
  match_at (pair ++ post) = None
  /\ (json_val <> lit " db:" -> db_val <> lit " db:" ->
      exists before after,
        rewrite (pre ++ pair ++ post) = before ++ pair ++ after
        /\ tags_inserted pre before)
  /\ (~ In dquote pre -> ~ In dquote post ->
      rewrite (pre ++ pair ++ post) = pre ++ pair ++ post).
Proof.
  intros H1 Hs H2 Hne pair.
  assert (Ep : forall x, pair ++ x = json_tag json_val ++ sep ++ db_tag db_val ++ x).
  { intros x. unfold pair. rewrite <- !app_assoc. reflexivity. }
  split; [|split].
  - rewrite Ep. apply badly_spaced_head; assumption.
  - intros N1 N2.
    apply (inserted_keeps_pair pre pair post _ "j"%char
             ((lit "son:" ++ dquote :: json_val ++ [dquote]) ++ sep ++ db_tag db_val)).
    + reflexivity.
    + discriminate.
    + absent_from_literal.
    + intros a b Ea.
      apply (pair_has_no_site json_val sep db_val H1 Hs H2 Hne post a b); assumption.
    + apply rewrite_tags_inserted.
  - intros Hpre Hpost. rewrite Ep. apply badly_spaced_alone; assumption.
Qed.

Lemma single_space_required_witness :
  let pre := lit "A string `" ++ matched_text (lit "a") (lit "a") ++ lit "` B string `" in
  let pair := json_tag (lit "b") ++ [ascii_of_nat 9] ++ db_tag (lit "b") in
  match_at (pair ++ lit "`") = None
  /\ (exists before after,
        rewrite (pre ++ pair ++ lit "`") = before ++ pair ++ after
        /\ tags_inserted pre before)
  /\ rewrite (lit "B string `" ++ pair ++ lit "`") = lit "B string `" ++ pair ++ lit "`".
Proof.
  assert (Hne : [ascii_of_nat 9] <> [space]) by discriminate.
  assert (N : lit "b" <> lit " db:") by discriminate.
  destruct (single_space_required
              (lit "A string `" ++ matched_text (lit "a") (lit "a") ++ lit "` B string `")
              (lit "b") [ascii_of_nat 9] (lit "b") (lit "`")
              (unquoted_by_contains (lit "b") eq_refl)
              (unquoted_by_contains [ascii_of_nat 9] eq_refl)
              (unquoted_by_contains (lit "b") eq_refl) Hne) as (Hhead & Hpass & _).
  destruct (single_space_required
              (lit "B string `") (lit "b") [ascii_of_nat 9] (lit "b") (lit "`")
              (unquoted_by_contains (lit "b") eq_refl)
              (unquoted_by_contains [ascii_of_nat 9] eq_refl)
              (unquoted_by_contains (lit "b") eq_refl) Hne) as (_ & _ & Hwhole).
  split; [exact Hhead|]. split; [exact (Hpass N N)|].
  apply Hwhole; apply unquoted_by_contains; reflexivity.
Defined.

(** C8, as the documentation words it, fails on a text where a well spaced
    pair overlaps the badly spaced one: the primary value [json:] and the
    secondary value made of a space and [db:], a tab between the two tags,
    and a text after them that closes the overlapping pair.  The pattern
    matches from the inside of the primary tag on, and the derived tag
    lands inside the secondary tag. *)
Lemma badly_spaced_pair_broken :
  ~ passes_through []
      (json_tag (lit "json:") ++ [ascii_of_nat 9] ++ db_tag (lit " db:"))
      (lit "y" ++ [dquote]).
Proof.
  intros [_ (before & after & H)].
  assert (Hc : contains (json_tag (lit "json:") ++ [ascii_of_nat 9] ++ db_tag (lit " db:"))
                 (rewrite ([] ++ (json_tag (lit "json:") ++ [ascii_of_nat 9]
                                  ++ db_tag (lit " db:")) ++ lit "y" ++ [dquote]))
               = true)
    by (rewrite H; apply contains_app).
  vm_compute in Hc. discriminate Hc.
Qed.

(** ** Reading in text mode *)

Lemma universal_newlines_pending (s : str) :
  universal_newlines_from true s = universal_newlines_from false s
  \/ exists s', s = line_feed :: s'
                /\ universal_newlines_from true s = universal_newlines_from false s'.
Proof.
  destruct s as [|c s]; [left; reflexivity|].
  cbn [universal_newlines_from].
  destruct (Ascii.eqb c carriage_return); [left; reflexivity|].
  destruct (Ascii.eqb c line_feed) eqn:E; [|left; reflexivity].
  apply Ascii.eqb_eq in E as ->. right. exists s. split; reflexivity.
Qed.

(** A text without a line end in it is found at the head of the text as
    it is read exactly when it is at the head of the text. *)
Lemma starts_with_as_read (p s : str) :
  ~ In carriage_return p -> ~ In line_feed p ->
  starts_with p (universal_newlines_from false s) = starts_with p s.
Proof.
  revert s. induction p as [|x p IH]; intros s Hcr Hlf; [reflexivity|].
  destruct s as [|c s]; [reflexivity|].
  assert (Hx1 : x <> carriage_return) by (intros ->; apply Hcr; left; reflexivity).
  assert (Hx2 : x <> line_feed) by (intros ->; apply Hlf; left; reflexivity).
  cbn [universal_newlines_from]. rewrite andb_false_r.
  destruct (Ascii.eqb c carriage_return) eqn:E.
  - apply Ascii.eqb_eq in E as ->. cbn [starts_with].
    rewrite (proj2 (Ascii.eqb_neq _ _) Hx1), (proj2 (Ascii.eqb_neq _ _) Hx2).
    reflexivity.
  - cbn [starts_with]. rewrite IH; [reflexivity | |].
    + intros H. apply Hcr. right. exact H.
    + intros H. apply Hlf. right. exact H.
Qed.

Lemma starts_with_line_end (x c : ascii) (p s : str) :
  x <> c -> starts_with (x :: p) (c :: s) = false.
Proof. intros H. cbn [starts_with]. rewrite (proj2 (Ascii.eqb_neq _ _) H). reflexivity. Qed.

(** Reading neither makes nor breaks an occurrence of a text that holds
    no line end. *)
Lemma contains_as_read (x : ascii) (p : str) (pending : bool) (s : str) :
  ~ In carriage_return (x :: p) -> ~ In line_feed (x :: p) ->
  contains (x :: p) (universal_newlines_from pending s) = contains (x :: p) s.
Proof.
  intros Hcr Hlf.
  assert (Hx1 : x <> carriage_return) by (intros ->; apply Hcr; left; reflexivity).
  assert (Hx2 : x <> line_feed) by (intros ->; apply Hlf; left; reflexivity).
  revert pending. induction s as [|c s IH]; intros pending; [reflexivity|].
  cbn [universal_newlines_from].
  destruct (Ascii.eqb c carriage_return) eqn:E1.
  { apply Ascii.eqb_eq in E1 as ->. cbn [contains].
    rewrite !starts_with_line_end by assumption. cbn [orb]. apply IH. }
  destruct (Ascii.eqb c line_feed && pending) eqn:E2.
  { apply andb_true_iff in E2 as [E2 _]. apply Ascii.eqb_eq in E2 as ->.
    cbn [contains]. rewrite starts_with_line_end by assumption. cbn [orb]. apply IH. }
  cbn [contains]. rewrite IH. f_equal.
  cbn [starts_with]. f_equal. apply starts_with_as_read.
  - intros H. apply Hcr. right. exact H.
  - intros H. apply Hlf. right. exact H.
Qed.

Lemma marker_as_read (s : str) :
  contains marker (universal_newlines s) = contains marker s.
Proof.
  apply (contains_as_read "b"%char (lit "son:" ++ [dquote])); absent_from_literal.
Qed.

(** The end of the text as it is read is the end of the text, as it is
    read. *)
Lemma as_read_suffix (pending : bool) (s a' b' : str) :
  universal_newlines_from pending s = a' ++ b' ->
  exists a b pending', s = a ++ b /\ b' = universal_newlines_from pending' b.
Proof.
  revert pending a'. induction s as [|c s IH]; intros pending a' H.
  - exists [], [], pending. cbn [universal_newlines_from] in *.
    symmetry in H. apply app_eq_nil in H as [_ ->]. split; reflexivity.
  - destruct a' as [|x a'].
    + exists [], (c :: s), pending. split; [reflexivity | symmetry; exact H].
    + cbn [universal_newlines_from] in H.
      destruct (Ascii.eqb c carriage_return).
      { injection H as _ H. destruct (IH _ _ H) as (a & b & f & -> & ->).
        exists (c :: a), b, f. split; reflexivity. }
      destruct (Ascii.eqb c line_feed && pending).
      { destruct (IH _ _ H) as (a & b & f & -> & ->).
        exists (c :: a), b, f. split; reflexivity. }
      injection H as _ H. destruct (IH _ _ H) as (a & b & f & -> & ->).
      exists (c :: a), b, f. split; reflexivity.
Qed.

(** A literal of the pattern at the head of the text as it is read is at
    the head of the text. *)
Lemma as_read_literal (p s t : str) :
  ~ In carriage_return p -> ~ In line_feed p ->
  universal_newlines_from false s = p ++ t ->
  exists t0, s = p ++ t0 /\ universal_newlines_from false t0 = t.
Proof.
  revert s. induction p as [|x p IH]; intros s Hcr Hlf H.
  - exists s. split; [reflexivity | exact H].
  - assert (Hx1 : x <> carriage_return) by (intros ->; apply Hcr; left; reflexivity).
    destruct s as [|c s]; [discriminate H|].
    cbn [universal_newlines_from] in H. rewrite andb_false_r in H.
    destruct (Ascii.eqb c carriage_return) eqn:E.
    + injection H as H _. exfalso. apply Hlf. left. symmetry. exact H.
    + injection H as -> H. destruct (IH s) as (t0 & -> & Ht); [| | exact H |].
      * intros Hin. apply Hcr. right. exact Hin.
      * intros Hin. apply Hlf. right. exact Hin.
      * exists t0. split; [reflexivity | exact Ht].
Qed.

(** A group of the pattern in the text as it is read is a group in the
    text. *)
Lemma as_read_group (pending : bool) (s g t : str) :
  ~ In dquote g ->
  universal_newlines_from pending s = g ++ dquote :: t ->
  exists g0 s0, s = g0 ++ dquote :: s0 /\ ~ In dquote g0
                /\ universal_newlines_from false s0 = t.
Proof.
  revert pending g. induction s as [|c s IH]; intros pending g Hg H.
  - destruct g; discriminate H.
  - cbn [universal_newlines_from] in H.
    destruct (Ascii.eqb c carriage_return) eqn:E1.
    { apply Ascii.eqb_eq in E1 as ->.
      destruct g as [|x g]; [discriminate H|]. injection H as _ H.
      destruct (IH true g) as (g0 & s0 & -> & Hg0 & Ht); [| exact H |].
      - intros Hin. apply Hg. right. exact Hin.
      - exists (carriage_return :: g0), s0. repeat split; [|exact Ht].
        intros [Hin | Hin]; [discriminate Hin | exact (Hg0 Hin)]. }
    destruct (Ascii.eqb c line_feed && pending) eqn:E2.
    { apply andb_true_iff in E2 as [E2 _]. apply Ascii.eqb_eq in E2 as ->.
      destruct (IH false g Hg H) as (g0 & s0 & -> & Hg0 & Ht).
      exists (line_feed :: g0), s0. repeat split; [|exact Ht].
      intros [Hin | Hin]; [discriminate Hin | exact (Hg0 Hin)]. }
    destruct g as [|x g].
    + injection H as -> H. exists [], s. repeat split; [tauto | exact H].
    + injection H as -> H.
      destruct (IH false g) as (g0 & s0 & -> & Hg0 & Ht); [| exact H |].
      * intros Hin. apply Hg. right. exact Hin.
      * exists (x :: g0), s0. repeat split; [|exact Ht].
        intros [Hin | Hin]; [|exact (Hg0 Hin)].
        apply Hg. left. exact Hin.
Qed.

(** A match at the head of the text as it is read is a match at the head
    of the text. *)
Lemma match_as_read (s g1 g2 r : str) :
  match_at (universal_newlines_from false s) = Some (g1, g2, r) ->
  exists g1' g2' r', match_at s = Some (g1', g2', r').
Proof.
  intros H. apply match_at_sound in H as (H & H1 & H2).
  rewrite matched_text_shape in H.
  apply as_read_literal in H as (t0 & -> & H); [| absent_from_literal ..].
  apply as_read_group in H as (g1' & s0 & -> & Hg1 & H); [|exact H1].
  change (lit " db:" ++ [dquote] ++ g2 ++ pat_close ++ r)
    with ((lit " db:" ++ [dquote]) ++ g2 ++ dquote :: r) in H.
  apply as_read_literal in H as (t1 & -> & H); [| absent_from_literal ..].
  apply as_read_group in H as (g2' & s1 & -> & Hg2 & _); [|exact H2].
  exists g1', g2', s1. rewrite <- (match_at_complete g1' g2' s1 Hg1 Hg2).
  f_equal. rewrite matched_text_shape. reflexivity.
Qed.

(** A text where the pattern matches nowhere is, as it is read, a text
    where the pattern matches nowhere. *)
Lemma unmatched_as_read (s : str) :
  (forall a b, s = a ++ b -> match_at b = None) ->
  forall a' b', universal_newlines s = a' ++ b' -> match_at b' = None.
Proof.
  intros Hno a' b' H.
  destruct (match_at b') as [[[g1 g2] r]|] eqn:E; [exfalso | reflexivity].
  apply as_read_suffix in H as (a & b & pending & -> & ->).
  assert (Hf : exists a0 b0, a ++ b = a0 ++ b0
               /\ match_at (universal_newlines_from false b0) = Some (g1, g2, r)).
  { destruct pending; [|exists a, b; split; [reflexivity | exact E]].
    destruct (universal_newlines_pending b) as [Hp | (b1 & -> & Hp)]; rewrite Hp in E.
    - exists a, b. split; [reflexivity | exact E].
    - exists (a ++ [line_feed]), b1. split; [rewrite <- app_assoc; reflexivity | exact E]. }
  destruct Hf as (a0 & b0 & Hab & Hm).
  apply match_as_read in Hm as (g1' & g2' & r' & Hm).
  rewrite (Hno a0 b0 Hab) in Hm. discriminate Hm.
Qed.

(** ** The loop body *)

Lemma contains_cons (pat : str) (c : ascii) (s : str) :
  contains pat s = true -> contains pat (c :: s) = true.
Proof. intros H. cbn [contains]. rewrite H. apply orb_true_r. Qed.

Lemma contains_app_r (pat a b : str) :
  contains pat b = true -> contains pat (a ++ b) = true.
Proof.
  intros H. induction a as [|c a IH]; [exact H|].
  simpl app. apply contains_cons. exact IH.
Qed.

Lemma replace_json_db_marker (json_val db_val : str) :
  contains marker (replace_json_db json_val db_val) = true.
Proof.
  rewrite replace_json_db_tags. apply contains_iff.
  exists (json_tag json_val ++ [space]),
    (bson_val json_val db_val ++ [dquote] ++ space :: db_tag db_val).
  unfold bson_tag, marker.
  same_text.
Qed.

(** The rewrite changes nothing, or it leaves the marker in the text. *)
Lemma rewrite_same_or_marked (content : str) :
  rewrite content = content \/ contains marker (rewrite content) = true.
Proof.
  induction content as [|c s E IH|s a b rest E IH] using scan_ind.
  - left. reflexivity.
  - rewrite (rewrite_lit _ _ E). destruct IH as [-> | IH].
    + left. reflexivity.
    + right. apply contains_cons. exact IH.
  - right. rewrite (rewrite_hit _ _ _ _ E). apply contains_iff.
    pose proof (replace_json_db_marker a b) as H.
    apply contains_iff in H as (x & y & ->).
    exists x, (y ++ rewrite rest). repeat rewrite <- app_assoc. reflexivity.
Qed.

Lemma read_file_raw (filepath raw : str) (st : state) :
  disk st !! filepath = Some raw ->
  read_file filepath st = Some (universal_newlines raw).
Proof. intros H. unfold read_file. rewrite H. reflexivity. Qed.


Lemma read_file_some (p c : str) (st : state) :
  read_file p st = Some c ->
  exists raw, disk st !! p = Some raw /\ c = universal_newlines raw.
Proof.
  unfold read_file. destruct (disk st !! p) as [raw|]; [|discriminate].
  intros [= <-]. exists raw. split; reflexivity.
Qed.

Lemma read_file_by_lookup (filepath : str) (st st' : state) :
  disk st' !! filepath = disk st !! filepath ->
  read_file filepath st' = read_file filepath st.
Proof. unfold read_file. intros ->. reflexivity. Qed.

Lemma visit_test_file (filepath : str) (st : state) :
  ends_with test_suffix filepath = true -> visit filepath st = (Completed, st).
Proof. intros H. unfold visit. rewrite H. reflexivity. Qed.

Lemma visit_unreadable (filepath : str) (st : state) :
  ends_with test_suffix filepath = false ->
  read_file filepath st = None ->
  visit filepath st = (Uncaught, st).
Proof. intros Ht Hd. unfold visit. rewrite Ht, Hd. reflexivity. Qed.

Lemma visit_marked (filepath content : str) (st : state) :
  ends_with test_suffix filepath = false ->
  read_file filepath st = Some content ->
  contains marker content = true ->
  visit filepath st = (Completed, print (Skip (basename filepath)) st).
Proof. intros Ht Hd Hm. unfold visit. rewrite Ht, Hd, Hm. reflexivity. Qed.

Lemma visit_unchanged (filepath content : str) (st : state) :
  ends_with test_suffix filepath = false ->
  read_file filepath st = Some content ->
  contains marker content = false ->
  rewrite content = content ->
  visit filepath st = (Completed, print (NoChanges (basename filepath)) st).
Proof.
  intros Ht Hd Hm Hr. unfold visit. rewrite Ht, Hd, Hm.
  destruct (decide _) as [N|_]; [contradiction | reflexivity].
Qed.

Lemma visit_refused (filepath content : str) (st : state) :
  ends_with test_suffix filepath = false ->
  read_file filepath st = Some content ->
  contains marker content = false ->
  rewrite content <> content ->
  filepath ∈ read_only st ->
  visit filepath st = (Uncaught, st).
Proof.
  intros Ht Hd Hm Hr Hro. unfold visit, write_file. rewrite Ht, Hd, Hm.
  destruct (decide (rewrite content <> content)) as [_|N]; [|contradiction].
  destruct (decide (filepath ∈ read_only st)) as [_|N]; [reflexivity | contradiction].
Qed.

Lemma visit_changed (filepath content : str) (st : state) :
  ends_with test_suffix filepath = false ->
  read_file filepath st = Some content ->
  contains marker content = false ->
  rewrite content <> content ->
  filepath ∉ read_only st ->
  visit filepath st
  = (Completed,
     print (Updated (basename filepath) (marker_count (rewrite content)))
           (store filepath (rewrite content) st)).
Proof.
  intros Ht Hd Hm Hr Hro. unfold visit, write_file. rewrite Ht, Hd, Hm.
  destruct (decide (rewrite content <> content)) as [_|N]; [|contradiction].
  destruct (decide (filepath ∈ read_only st)) as [N|_]; [contradiction | reflexivity].
Qed.

Lemma visit_cases (filepath : str) (st : state) :
  visit_case filepath st (visit filepath st).
Proof.
  destruct (ends_with test_suffix filepath) eqn:Ht.
  { rewrite visit_test_file by exact Ht. constructor. exact Ht. }
  destruct (read_file filepath st) as [content|] eqn:Hd.
  2:{ rewrite visit_unreadable by assumption. constructor; assumption. }
  destruct (contains marker content) eqn:Hm.
  { rewrite (visit_marked _ content) by assumption. econstructor; eassumption. }
  destruct (decide (rewrite content = content)) as [Hr|Hr].
  { rewrite (visit_unchanged _ content) by assumption. econstructor; eassumption. }
  destruct (decide (filepath ∈ read_only st)) as [Hro|Hro].
  - rewrite (visit_refused _ content) by assumption.
    apply (visit_is_refused _ _ content); assumption.
  - rewrite (visit_changed _ content) by assumption.
    apply (visit_is_changed _ _ content); assumption.
Qed.

(** The loop body never changes what can be written. *)
Lemma visit_read_only (filepath : str) (st : state) :
  read_only (snd (visit filepath st)) = read_only st.
Proof. destruct (visit_cases filepath st); reflexivity. Qed.


(** The loop body touches the text of the visited path only, and never
    that of a quiet path. *)
Lemma visit_other_path (filepath p : str) (st : state) :
  p <> filepath -> disk (snd (visit filepath st)) !! p = disk st !! p.
Proof.
  intros Hne. destruct (visit_cases filepath st); try reflexivity.
  simpl. apply lookup_insert_ne. congruence.
Qed.

Lemma visit_quiet_path (filepath p : str) (st : state) :
  quiet st p -> disk (snd (visit filepath st)) !! p = disk st !! p.
Proof.
  intros Hq. destruct (decide (p = filepath)) as [->|Hne];
    [|apply visit_other_path; exact Hne].
  destruct (visit_cases filepath st) as [| | | | |content Ht Hd Hm Hr Hro];
    try reflexivity.
  exfalso. destruct Hq as [Hq|[Hq|Hq]]; [congruence | contradiction |].
  rewrite Hd in Hq. destruct Hq as [Hq|Hq]; [congruence | contradiction].
Qed.

Lemma quiet_by_lookup (st st' : state) (p : str) :
  disk st' !! p = disk st !! p -> read_only st' = read_only st ->
  quiet st p -> quiet st' p.
Proof.
  unfold quiet. intros Hd ->. rewrite (read_file_by_lookup p st st' Hd). exact id.
Qed.

Lemma visit_makes_quiet (filepath : str) (st : state) :
  quiet (snd (visit filepath st)) filepath.
Proof.
  unfold quiet.
  destruct (visit_cases filepath st) as
    [Ht|Ht Hd|content Ht Hd Hm|content Ht Hd Hm Hr|content Ht Hd Hm Hr Hro
     |content Ht Hd Hm Hr Hro]; cbn [snd].
  - left. exact Ht.
  - right. right. rewrite Hd. exact I.
  - right. right. change (read_file filepath (print _ st)) with (read_file filepath st).
    rewrite Hd. left. exact Hm.
  - right. right. change (read_file filepath (print _ st)) with (read_file filepath st).
    rewrite Hd. right. exact Hr.
  - right. left. exact Hro.
  - right. right. unfold read_file. simpl. rewrite lookup_insert_eq. simpl. left.
    rewrite marker_as_read.
    destruct (rewrite_same_or_marked content); [contradiction | assumption].
Qed.

Lemma visit_all_quiet_path (paths : list str) (p : str) (st : state) :
  quiet st p -> disk (snd (visit_all paths st)) !! p = disk st !! p.
Proof.
  revert st. induction paths as [|q paths IH]; intros st Hq; [reflexivity|].
  simpl. pose proof (visit_quiet_path q p st Hq) as Hv.
  pose proof (visit_read_only q st) as Hro.
  destruct (visit q st) as [[|] st'] eqn:E; simpl in Hv, Hro.
  - rewrite IH; [exact Hv|]. apply (quiet_by_lookup st); assumption.
  - exact Hv.
Qed.

(** The lines printed before a visit play no part in it. *)
Lemma visit_console (filepath : str) (d : gmap str str) (c : list report) (ro : gset str) :
  visit filepath (mkState d c ro)
  = (fst (visit filepath (mkState d [] ro)),
     mkState (disk (snd (visit filepath (mkState d [] ro))))
             (c ++ console (snd (visit filepath (mkState d [] ro)))) ro).
Proof.
  unfold visit, read_file, write_file. simpl.
  destruct (ends_with test_suffix filepath); simpl; [rewrite app_nil_r; reflexivity|].
  destruct (d !! filepath) as [raw|]; simpl; [|rewrite app_nil_r; reflexivity].
  destruct (contains marker (universal_newlines raw)); simpl; [reflexivity|].
  destruct (decide _); [|reflexivity].
  destruct (decide _); simpl; [rewrite app_nil_r|]; reflexivity.
Qed.

Lemma visit_all_console
    (paths : list str) (d : gmap str str) (c : list report) (ro : gset str) :
  visit_all paths (mkState d c ro)
  = (fst (visit_all paths (mkState d [] ro)),
     mkState (disk (snd (visit_all paths (mkState d [] ro))))
             (c ++ console (snd (visit_all paths (mkState d [] ro)))) ro).
Proof.
  revert d c. induction paths as [|p paths IH]; intros d c.
  - simpl. rewrite app_nil_r. reflexivity.
  - simpl. rewrite (visit_console p d c ro).
    pose proof (visit_read_only p (mkState d [] ro)) as Hro.
    destruct (visit p (mkState d [] ro)) as [[|] [d' out ro']] eqn:E;
      simpl in Hro; subst ro'; simpl.
    + rewrite (IH d' (c ++ out)), (IH d' out). simpl.
      rewrite app_assoc. reflexivity.
    + reflexivity.
Qed.

(** A second visit, on any disk that holds for the path what the first
    visit left there, ends the same way, writes nothing and prints the
    calmed line. *)
Lemma visit_again (filepath : str) (d d1 : gmap str str) (ro : gset str) :
  d1 !! filepath = disk (snd (visit filepath (mkState d [] ro))) !! filepath ->
  visit filepath (mkState d1 [] ro)
  = (fst (visit filepath (mkState d [] ro)),
     mkState d1 (map calm (console (snd (visit filepath (mkState d [] ro))))) ro).
Proof.
  destruct (visit_cases filepath (mkState d [] ro)) as
    [Ht|Ht Hd|content Ht Hd Hm|content Ht Hd Hm Hr|content Ht Hd Hm Hr Hro
     |content Ht Hd Hm Hr Hro];
    cbn [fst snd]; intros H1.
  - apply visit_test_file. exact Ht.
  - apply visit_unreadable; [exact Ht|].
    rewrite (read_file_by_lookup filepath (mkState d [] ro)); [exact Hd | exact H1].
  - rewrite (visit_marked _ content); [reflexivity | exact Ht | | exact Hm].
    rewrite (read_file_by_lookup filepath (mkState d [] ro)); [exact Hd | exact H1].
  - rewrite (visit_unchanged _ content); [reflexivity | exact Ht | | exact Hm | exact Hr].
    rewrite (read_file_by_lookup filepath (mkState d [] ro)); [exact Hd | exact H1].
  - apply (visit_refused _ content); [exact Ht | | exact Hm | exact Hr | exact Hro].
    rewrite (read_file_by_lookup filepath (mkState d [] ro)); [exact Hd | exact H1].
  - simpl in H1. rewrite lookup_insert_eq in H1.
    rewrite (visit_marked _ (universal_newlines (rewrite content)));
      [reflexivity | exact Ht | apply read_file_raw; exact H1 |].
    rewrite marker_as_read.
    destruct (rewrite_same_or_marked content); [contradiction | assumption].
Qed.

Lemma visit_all_again (paths : list str) (d : gmap str str) (ro : gset str) :
  visit_all paths (mkState (disk (snd (visit_all paths (mkState d [] ro)))) [] ro)
  = (fst (visit_all paths (mkState d [] ro)),
     mkState (disk (snd (visit_all paths (mkState d [] ro))))
             (map calm (console (snd (visit_all paths (mkState d [] ro))))) ro).
Proof.
  revert d. induction paths as [|p paths IH]; intros d; [reflexivity|].
  cbn [visit_all].
  pose proof (visit_makes_quiet p (mkState d [] ro)) as Hq.
  pose proof (fun d1 => visit_again p d d1 ro) as Hagain.
  pose proof (visit_read_only p (mkState d [] ro)) as Hro.
  destruct (visit p (mkState d [] ro)) as [[|] [d' out ro']] eqn:E;
    simpl in Hq, Hagain, Hro; subst ro'.
  - rewrite (visit_all_console paths d' out). simpl.
    set (d1 := disk (snd (visit_all paths (mkState d' [] ro)))).
    assert (H1 : d1 !! p = d' !! p).
    { apply (visit_all_quiet_path paths p (mkState d' [] ro)).
      apply (quiet_by_lookup (mkState d' out ro)); [reflexivity .. | exact Hq]. }
    rewrite (Hagain d1 H1).
    rewrite (visit_all_console paths d1 (map calm out)).
    unfold d1. rewrite IH. simpl. rewrite map_app. reflexivity.
  - simpl. rewrite (Hagain d' eq_refl). reflexivity.
Qed.

(** The loop runs over the selection: the paths it passes over with
    [continue] play no part. *)
Lemma main_over_selection (listing : option (list str)) (st : state) :
  main listing st = visit_all (selected_files listing) st.
Proof.
  unfold main, selected_files.
  generalize (sorted (glob_go listing)) as paths. intros paths. revert st.
  induction paths as [|p paths IH]; intros st; [reflexivity|].
  simpl. destruct (ends_with test_suffix p) eqn:Ht; simpl.
  - rewrite (visit_test_file _ _ Ht). apply IH.
  - destruct (visit p st) as [[|] st']; [apply IH | reflexivity].
Qed.

Lemma no_match_by_count (content : str) :
  match_count content = 0 ->
  forall a b, content = a ++ b -> match_at b = None.
Proof.
  unfold match_count.
  induction content as [|c s E IH|s x y rest E IH] using scan_ind; intros H a b Eab.
  - destruct a; [|discriminate]. destruct b; [reflexivity | discriminate].
  - rewrite (scan_lit _ _ E) in H. simpl in H.
    destruct a as [|c' a]; simpl in Eab.
    + subst b. exact E.
    + injection Eab as _ Eab. exact (IH H a b Eab).
  - rewrite (scan_hit _ _ _ _ E) in H. discriminate H.
Qed.

(** C4. A visited file whose text holds the marker anywhere is reported as
    skipped, nothing is written, and the whole run leaves its text as it
    was. *)
Theorem marked_file_is_skipped (filepath content : str) (st : state) :
  ends_with test_suffix filepath = false ->
  disk st !! filepath = Some content ->
  (exists a b, content = a ++ marker ++ b) ->
  visit filepath st
  = (Completed,
     mkState (disk st) (console st ++ [Skip (basename filepath)]) (read_only st))
  /\ forall listing, disk (snd (main listing st)) !! filepath = Some content.
Proof.
  intros Ht Hd Hm. apply contains_iff in Hm. rewrite <- marker_as_read in Hm. split.
  - apply (visit_marked _ (universal_newlines content));
      [exact Ht | apply read_file_raw; exact Hd | exact Hm].
  - intros listing. unfold main. rewrite visit_all_quiet_path; [exact Hd|].
    right. right. rewrite (read_file_raw _ _ _ Hd). left. exact Hm.
Qed.

Lemma marked_file_is_skipped_witness :
  visit (path_join model_dir (lit "user.go"))
        (mkState {[ path_join model_dir (lit "user.go") := lit "// see " ++ marker ]} [] ∅)
  = (Completed,
     mkState {[ path_join model_dir (lit "user.go") := lit "// see " ++ marker ]}
             [Skip (lit "user.go")] ∅).
Proof.
  assert (Hm : exists a b, lit "// see " ++ marker = a ++ marker ++ b)
    by (exists (lit "// see "), []; reflexivity).
  destruct (marked_file_is_skipped
              (path_join model_dir (lit "user.go")) (lit "// see " ++ marker)
              (mkState {[ path_join model_dir (lit "user.go") := lit "// see " ++ marker ]}
                       [] ∅)
              eq_refl (lookup_singleton_eq _ _) Hm) as [Hv _].
  exact Hv.
Defined.

(** C6. A visited file whose text holds neither the marker nor, at any
    position, a match of the pattern is reported as unchanged, nothing is
    written, and the whole run leaves its text as it was. *)
Theorem unmatched_file_is_untouched (filepath content : str) (st : state) :
  ends_with test_suffix filepath = false ->
  disk st !! filepath = Some content ->
  contains marker content = false ->
  (forall a b, content = a ++ b -> match_at b = None) ->
  visit filepath st
  = (Completed,
     mkState (disk st) (console st ++ [NoChanges (basename filepath)]) (read_only st))
  /\ forall listing, disk (snd (main listing st)) !! filepath = Some content.
Proof.
  intros Ht Hd Hm Hno. rewrite <- marker_as_read in Hm.
  destruct (rewrite_no_match (universal_newlines content) (unmatched_as_read _ Hno))
    as [_ Hr].
  split.
  - apply (visit_unchanged _ (universal_newlines content));
      [exact Ht | apply read_file_raw; exact Hd | exact Hm | exact Hr].
  - intros listing. unfold main. rewrite visit_all_quiet_path; [exact Hd|].
    right. right. rewrite (read_file_raw _ _ _ Hd). right. exact Hr.
Qed.

Lemma unmatched_file_is_untouched_witness :
  visit (path_join model_dir (lit "task.go"))
        (mkState {[ path_join model_dir (lit "task.go") := lit "package model" ]} [] ∅)
  = (Completed,
     mkState {[ path_join model_dir (lit "task.go") := lit "package model" ]}
             [NoChanges (lit "task.go")] ∅).
Proof.
  destruct (unmatched_file_is_untouched
              (path_join model_dir (lit "task.go")) (lit "package model")
              (mkState {[ path_join model_dir (lit "task.go") := lit "package model" ]}
                       [] ∅)
              eq_refl (lookup_singleton_eq _ _) eq_refl
              (no_match_by_count (lit "package model") eq_refl)) as [Hv _].
  exact Hv.
Defined.

(** C3, as the code has it. A second run leaves every file as the first
    run left it and ends as the first run ended.  It prints one line where
    the first run printed one: skipped where the first run updated or
    skipped the file, unchanged again where the first run found nothing to
    change. *)
Theorem rerun_is_stable
    (listing : option (list str)) (d : gmap str str) (ro : gset str) :
  let first := main listing (mkState d [] ro) in
  let second := main listing (mkState (disk (snd first)) [] ro) in
  disk (snd second) = disk (snd first)
  /\ fst second = fst first
  /\ console (snd second) = map calm (console (snd first)).
Proof.
  unfold main. cbv zeta. rewrite visit_all_again. simpl. tauto.
Qed.

(** C3, as the documentation words it, fails on a directory with one file
    that holds no tag pair: the second run reports it as unchanged, not as
    skipped. *)
Lemma rerun_all_skipped_fails :
  ~ rerun_all_skipped
      (Some [lit "task.go"])
      {[ path_join model_dir (lit "task.go") := lit "package model" ]} ∅.
Proof.
  intros [_ H]. vm_compute in H. discriminate H.
Qed.

(** ** The order on paths and the sort *)

Lemma ascii_code_neq (x y : ascii) :
  Ascii.eqb x y = false -> nat_of_ascii x <> nat_of_ascii y.
Proof.
  intros E H. apply Ascii.eqb_neq in E. apply E.
  rewrite <- (ascii_nat_embedding x), <- (ascii_nat_embedding y), H. reflexivity.
Qed.

Lemma ascii_eqb_sym (x y : ascii) : Ascii.eqb x y = Ascii.eqb y x.
Proof.
  destruct (Ascii.eqb x y) eqn:E.
  - apply Ascii.eqb_eq in E as ->. symmetry. apply Ascii.eqb_refl.
  - symmetry. apply Ascii.eqb_neq. apply Ascii.eqb_neq in E. congruence.
Qed.

Lemma str_leb_total (a b : str) : str_leb a b = false -> str_leb b a = true.
Proof.
  revert b. induction a as [|x a IH]; intros [|y b]; simpl; try congruence.
  rewrite (ascii_eqb_sym y x). destruct (Ascii.eqb x y) eqn:E; [apply IH|].
  pose proof (ascii_code_neq _ _ E). rewrite !Nat.ltb_ge, Nat.ltb_lt. lia.
Qed.

Lemma str_leb_trans (a b c : str) :
  str_leb a b = true -> str_leb b c = true -> str_leb a c = true.
Proof.
  revert b c. induction a as [|x a IH]; intros [|y b] [|z c]; simpl; try congruence.
  destruct (Ascii.eqb x y) eqn:Exy.
  - apply Ascii.eqb_eq in Exy as ->. destruct (Ascii.eqb y z); [apply IH | congruence].
  - destruct (Ascii.eqb y z) eqn:Eyz.
    + apply Ascii.eqb_eq in Eyz as ->. rewrite Exy. congruence.
    + intros H1 H2. apply Nat.ltb_lt in H1, H2.
      destruct (Ascii.eqb x z) eqn:Exz.
      * apply Ascii.eqb_eq in Exz as ->. lia.
      * apply Nat.ltb_lt. lia.
Qed.

Lemma str_leb_prefix (p a b : str) : str_leb (p ++ a) (p ++ b) = str_leb a b.
Proof.
  induction p as [|c p IH]; [reflexivity|].
  simpl. rewrite Ascii.eqb_refl. exact IH.
Qed.

Lemma insert_sorted_perm (x : str) (l : list str) :
  Permutation (insert_sorted x l) (x :: l).
Proof.
  induction l as [|y l IH]; simpl; [reflexivity|].
  destruct (str_leb x y); [reflexivity|].
  rewrite IH. apply perm_swap.
Qed.

Lemma sorted_perm (l : list str) : Permutation (sorted l) l.
Proof.
  induction l as [|x l IH]; simpl; [reflexivity|].
  rewrite insert_sorted_perm, IH. reflexivity.
Qed.

Lemma insert_sorted_ordered (x : str) (l : list str) :
  StronglySorted str_le l -> StronglySorted str_le (insert_sorted x l).
Proof.
  induction 1 as [|y l Hl IH Hy]; simpl.
  - constructor; constructor.
  - destruct (str_leb x y) eqn:E.
    + constructor; [constructor; assumption|].
      constructor; [exact E|].
      eapply List.Forall_impl; [|exact Hy]. intros z Hz. exact (str_leb_trans _ _ _ E Hz).
    + constructor; [exact IH|].
      apply List.Forall_forall. intros z Hz.
      apply (Permutation_in _ (insert_sorted_perm x l)) in Hz as [<- | Hz].
      * apply str_leb_total. exact E.
      * rewrite List.Forall_forall in Hy. exact (Hy z Hz).
Qed.

Lemma sorted_ordered (l : list str) : StronglySorted str_le (sorted l).
Proof.
  induction l as [|x l IH]; simpl; [constructor | apply insert_sorted_ordered; exact IH].
Qed.

Lemma sorted_under_prefix (p : str) (l : list str) :
  sorted (map (app p) l) = map (app p) (sorted l).
Proof.
  induction l as [|x l IH]; simpl; [reflexivity|].
  rewrite IH. generalize (sorted l) as l'. intros l'.
  induction l' as [|y l' IH']; simpl; [reflexivity|].
  rewrite str_leb_prefix. destruct (str_leb x y); simpl; [reflexivity|].
  rewrite IH'. reflexivity.
Qed.

Lemma ordered_under_prefix (p : str) (l : list str) :
  StronglySorted str_le l -> StronglySorted str_le (map (app p) l).
Proof.
  induction 1 as [|x l Hl IH Hx]; simpl; constructor; [exact IH|].
  apply List.Forall_map. eapply List.Forall_impl; [|exact Hx].
  intros y Hy. unfold str_le. rewrite str_leb_prefix. exact Hy.
Qed.

Lemma filter_ordered (f : str -> bool) (l : list str) :
  StronglySorted str_le l -> StronglySorted str_le (List.filter f l).
Proof.
  induction 1 as [|x l Hl IH Hx]; simpl; [constructor|].
  destruct (f x); [|exact IH].
  constructor; [exact IH|].
  apply List.Forall_forall. intros y Hy. apply filter_In in Hy as [Hy _].
  rewrite List.Forall_forall in Hx. exact (Hx y Hy).
Qed.

Lemma filter_perm (f : str -> bool) (l l' : list str) :
  Permutation l l' -> Permutation (List.filter f l) (List.filter f l').
Proof.
  induction 1 as [|x l l' H IH|x y l|l l' l'' H IH H' IH']; simpl.
  - reflexivity.
  - destruct (f x); [constructor|]; exact IH.
  - destruct (f x), (f y); try reflexivity. apply perm_swap.
  - etransitivity; eassumption.
Qed.

Lemma filter_under_map (f : str -> bool) (g : str -> str) (l : list str) :
  List.filter f (map g l) = map g (List.filter (fun x => f (g x)) l).
Proof.
  induction l as [|x l IH]; simpl; [reflexivity|].
  destruct (f (g x)); simpl; rewrite IH; reflexivity.
Qed.

Lemma filter_twice (f g : str -> bool) (l : list str) :
  List.filter g (List.filter f l) = List.filter (fun x => f x && g x) l.
Proof.
  induction l as [|x l IH]; simpl; [reflexivity|].
  destruct (f x); simpl; [destruct (g x)|]; rewrite IH; reflexivity.
Qed.

(** A suffix without a slash is looked for in the last component only. *)
Lemma ends_with_after_slash (pat dir name : str) :
  ~ In slash pat ->
  ends_with pat (path_join dir name) = ends_with pat name.
Proof.
  intros Hs. unfold path_join.
  destruct (ends_with pat name) eqn:E.
  - apply ends_with_iff in E as [a ->]. apply ends_with_iff.
    exists (dir ++ slash :: a). rewrite <- app_assoc. reflexivity.
  - destruct (ends_with pat (dir ++ slash :: name)) eqn:E'; [|reflexivity].
    apply ends_with_iff in E' as [a Ea].
    apply app_eq_app in Ea as [l [[_ Hl] | [_ Hl]]].
    + exfalso. apply Hs. rewrite Hl. apply in_or_app. right. left. reflexivity.
    + destruct l as [|c l].
      * exfalso. apply Hs. simpl in Hl. rewrite <- Hl. left. reflexivity.
      * injection Hl as _ Hl. rewrite <- E. symmetry. apply ends_with_iff.
        exists l. exact Hl.
Qed.

Lemma test_suffix_unslashed : ~ In slash test_suffix.
Proof. absent_from_literal. Qed.

Lemma path_join_prefix (dir : str) (names : list str) :
  map (path_join dir) names = map (app (dir ++ [slash])) names.
Proof.
  apply map_ext. intros name. unfold path_join. rewrite <- app_assoc. reflexivity.
Qed.

Lemma selected_files_names (names : list str) :
  selected_files (Some names)
  = map (path_join model_dir)
        (List.filter (fun name => negb (ends_with test_suffix name))
           (sorted (List.filter (fun name => negb (is_hidden name) && fnmatch_go name) names))).
Proof.
  unfold selected_files, glob_go.
  rewrite path_join_prefix, sorted_under_prefix, <- path_join_prefix, filter_under_map.
  f_equal. apply filter_ext. intros name.
  rewrite (ends_with_after_slash _ _ _ test_suffix_unslashed). reflexivity.
Qed.

(** C7, as the code has it. The selection is empty when the directory
    cannot be listed.  Otherwise it holds the paths, joined to the
    directory, of the names that do not start with a dot, end in [.go] and
    do not end in [_test.go], each as often as the listing has it, in
    ascending order of the names and of the paths; it is empty when the
    listing has no such name. *)
Theorem selection_is_sorted (names : list str) :
  selected_files None = []
  /\ exists kept,
       selected_files (Some names) = map (path_join model_dir) kept
       /\ StronglySorted str_le kept
       /\ StronglySorted str_le (selected_files (Some names))
       /\ Permutation kept (List.filter keeps names)
       /\ length (selected_files (Some names)) = length (List.filter keeps names).
Proof.
  split; [reflexivity|].
  set (go := List.filter (fun name => negb (is_hidden name) && fnmatch_go name) names).
  assert (Hperm : Permutation
                    (List.filter (fun name => negb (ends_with test_suffix name)) (sorted go))
                    (List.filter keeps names)).
  { rewrite (filter_perm _ _ _ (sorted_perm go)). unfold go.
    rewrite filter_twice. reflexivity. }
  exists (List.filter (fun name => negb (ends_with test_suffix name)) (sorted go)).
  rewrite selected_files_names. fold go.
  split; [reflexivity|]. split; [apply filter_ordered, sorted_ordered|].
  split; [|split; [exact Hperm|]].
  - rewrite path_join_prefix. apply ordered_under_prefix, filter_ordered, sorted_ordered.
  - rewrite length_map. apply Permutation_length. exact Hperm.
Qed.

(** C7, as the documentation words it, fails on a directory that holds a
    hidden file: the name ends in [.go] and is no test file, and the
    selection leaves it out. *)
Lemma selects_all_go_files_fails : ~ selects_all_go_files [lit ".swap.go"].
Proof.
  intros H.
  specialize (H (lit ".swap.go") (or_introl eq_refl) eq_refl eq_refl).
  vm_compute in H. exact H.
Qed.

(** ** Counting the markers *)

Lemma marker_count_miss (c : ascii) (s : str) :
  starts_with marker (c :: s) = false -> marker_count (c :: s) = marker_count s.
Proof. intros H. unfold marker_count. cbn [count_from]. rewrite H. reflexivity. Qed.

Lemma marker_count_hit (s : str) : marker_count (marker ++ s) = S (marker_count s).
Proof.
  unfold marker_count.
  change (marker ++ s) with ("b"%char :: (lit "son:" ++ [dquote]) ++ s).
  cbn [count_from].
  change ("b"%char :: (lit "son:" ++ [dquote]) ++ s) with (marker ++ s).
  rewrite starts_with_app. reflexivity.
Qed.

Lemma contains_false_app_l (pat a b : str) :
  contains pat (a ++ b) = false -> contains pat a = false.
Proof.
  intros H. destruct (contains pat a) eqn:E; [|reflexivity].
  apply contains_iff in E as [x [y ->]].
  rewrite <- H. symmetry. apply contains_iff. exists x, (y ++ b).
  rewrite <- !app_assoc. reflexivity.
Qed.

Lemma marker_count_none (s : str) :
  contains marker s = false -> marker_count s = 0.
Proof.
  induction s as [|c s IH]; intros H; [reflexivity|].
  cbn [contains] in H. apply orb_false_iff in H as [H1 H2].
  rewrite (marker_count_miss _ _ H1). exact (IH H2).
Qed.

Lemma unquoted_lit_bson : ~ In dquote (lit "bson:").
Proof. absent_from_literal. Qed.

Lemma marker_quoted : marker = lit "bson:" ++ [dquote].
Proof. reflexivity. Qed.

(** No marker runs across a double quote: the count adds up over the
    pieces a text is cut into after its double quotes. *)
Lemma marker_count_at_quote (a b : str) :
  marker_count (a ++ dquote :: b) = marker_count (a ++ [dquote]) + marker_count b.
Proof.
  remember (length a) as n eqn:Hn. revert a Hn.
  induction n as [n IH] using lt_wf_ind. intros a Hn.
  destruct (starts_with marker (a ++ dquote :: b)) eqn:E.
  - apply starts_with_iff in E as [r Er]. rewrite marker_quoted, <- app_assoc in Er.
    apply quote_prefix in Er as [[-> <-] | (a' & -> & ->)]; [| | apply unquoted_lit_bson].
    + change (lit "bson:" ++ dquote :: b) with (marker ++ b).
      rewrite marker_count_hit. reflexivity.
    + change ((lit "bson:" ++ dquote :: a') ++ dquote :: b) with (marker ++ a' ++ dquote :: b).
      change ((lit "bson:" ++ dquote :: a') ++ [dquote]) with (marker ++ a' ++ [dquote]).
      rewrite !marker_count_hit, (IH (length a')); [reflexivity | | reflexivity].
      subst n. rewrite length_app. simpl. lia.
  - destruct a as [|c a]; cbn [app] in *.
    + rewrite (marker_count_miss _ _ E). reflexivity.
    + rewrite (marker_count_miss _ _ E), (IH (length a)); [| subst n; simpl; lia | reflexivity].
      rewrite (marker_count_miss c (a ++ [dquote])); [reflexivity|].
      destruct (starts_with marker (c :: a ++ [dquote])) eqn:E'; [|reflexivity].
      apply starts_with_iff in E' as [r Er]. rewrite <- E. symmetry.
      apply starts_with_iff. exists (r ++ b).
      replace (c :: a ++ dquote :: b) with ((c :: a ++ [dquote]) ++ b)
        by (cbn [app]; rewrite <- app_assoc; reflexivity).
      rewrite Er, <- app_assoc. reflexivity.
Qed.

(** The count of a piece that ends at its one double quote. *)
Lemma marker_count_piece (u : str) :
  ~ In dquote u ->
  marker_count (u ++ [dquote]) = if ends_with (lit "bson:") u then 1 else 0.
Proof.
  induction u as [|c u IH]; intros Hu; [reflexivity|].
  destruct (starts_with marker ((c :: u) ++ [dquote])) eqn:E.
  - apply starts_with_iff in E as [r Er]. rewrite marker_quoted, <- app_assoc in Er.
    apply split_at_quote in Er as [Eu _]; [| exact Hu | apply unquoted_lit_bson].
    rewrite Eu. reflexivity.
  - cbn [app] in *. rewrite (marker_count_miss _ _ E), IH.
    2:{ intros Hin. apply Hu. right. exact Hin. }
    destruct (ends_with (lit "bson:") u) eqn:E1.
    + apply ends_with_iff in E1 as [x ->].
      rewrite (proj2 (ends_with_iff _ (c :: x ++ lit "bson:"))); [reflexivity|].
      exists (c :: x). reflexivity.
    + destruct (ends_with (lit "bson:") (c :: u)) eqn:E2; [|reflexivity].
      apply ends_with_iff in E2 as [x Ex]. destruct x as [|c' x]; cbn [app] in Ex.
      * change (c :: u ++ [dquote]) with ((c :: u) ++ [dquote]) in E.
        rewrite Ex in E. change (lit "bson:" ++ [dquote]) with marker in E.
        rewrite <- (app_nil_r marker), starts_with_app in E. discriminate.
      * injection Ex as _ ->. rewrite ends_with_app in E1. discriminate.
Qed.

Lemma first_component_within (sep c : ascii) (s : str) :
  In c (first_component sep s) -> In c s.
Proof.
  induction s as [|d s IH]; simpl; [tauto|].
  destruct (Ascii.eqb d sep); simpl; [tauto|]. intros [H|H]; [left | right; apply IH]; assumption.
Qed.

Lemma bson_val_unquoted (json_val db_val : str) :
  ~ In dquote json_val -> ~ In dquote db_val ->
  ~ In dquote (bson_val json_val db_val).
Proof.
  intros Hj Hd. unfold bson_val. apply unquoted_app.
  - unfold bson_name, json_name.
    destruct (decide _); [intros H; apply Hd, (first_component_within _ _ _ H)|].
    destruct (decide _); [absent_from_literal|].
    intros H; apply Hj, (first_component_within _ _ _ H).
  - destruct (omitempty json_val); [absent_from_literal | exact (fun H => H)].
Qed.

Lemma match_count_lit (c : ascii) (s : str) :
  match_at (c :: s) = None ->
  match_count (c :: s) = match_count s /\ overshoot (c :: s) = overshoot s.
Proof. intros E. unfold match_count, overshoot. rewrite (scan_lit _ _ E). split; reflexivity. Qed.

Lemma match_count_hit (s a b rest : str) :
  match_at s = Some (a, b, rest) ->
  match_count s = S (match_count rest)
  /\ overshoot s
     = (if ends_with (lit "bson:") (bson_val a b) then 1 else 0) + overshoot rest.
Proof.
  intros E. unfold match_count, overshoot. rewrite (scan_hit _ _ _ _ E). simpl.
  split; [reflexivity|]. destruct (ends_with _ _); reflexivity.
Qed.

(** The rewritten match behind a text [x], cut after its double quotes. *)
Lemma replaced_text_pieces (x a v b rest : str) :
  x ++ (json_tag a ++ space :: bson_tag v ++ space :: db_tag b) ++ rest
  = (x ++ lit "json:") ++ dquote :: a ++ dquote :: lit " bson:" ++ dquote
    :: v ++ dquote :: lit " db:" ++ dquote :: b ++ dquote :: rest.
Proof.
  unfold json_tag, bson_tag, db_tag.
  change (lit " bson:") with (space :: lit "bson:").
  change (lit " db:") with (space :: lit "db:").
  same_text.
Qed.

(** The matched text behind a text [x], cut at three places. *)
Lemma matched_text_pieces (x a b rest : str) :
  x ++ matched_text a b ++ rest
  = ((x ++ lit "json:") ++ [dquote])
    ++ (a ++ [dquote]) ++ (lit " db:" ++ [dquote]) ++ (b ++ [dquote]) ++ rest.
Proof.
  unfold matched_text, json_tag, db_tag.
  change (lit " db:") with (space :: lit "db:").
  same_text.
Qed.

(** The markers of the rewritten text: in a text that held none, one for
    each match, and one more for each match whose derived value ends in
    [bson:]. *)
Lemma marker_count_rewrite (content : str) :
  forall x,
    contains marker (x ++ content) = false ->
    marker_count (x ++ rewrite content) = match_count content + overshoot content.
Proof.
  induction content as [|c s E IH|s a b rest E IH] using scan_ind; intros x Hx.
  - rewrite rewrite_nil. apply marker_count_none. exact Hx.
  - rewrite (rewrite_lit _ _ E). destruct (match_count_lit _ _ E) as [-> ->].
    change (x ++ c :: rewrite s) with (x ++ [c] ++ rewrite s).
    rewrite app_assoc. apply IH. rewrite <- app_assoc. exact Hx.
  - rewrite (rewrite_hit _ _ _ _ E), replace_json_db_tags.
    destruct (match_count_hit _ _ _ _ E) as [-> ->].
    apply match_at_sound in E as (-> & Ha & Hb).
    rewrite matched_text_pieces in Hx.
    pose proof (contains_false_app_l _ _ _ Hx) as H0.
    apply contains_false_app_r in Hx.
    pose proof (contains_false_app_l _ _ _ Hx) as H1.
    do 2 apply contains_false_app_r in Hx.
    pose proof (contains_false_app_l _ _ _ Hx) as H2.
    apply contains_false_app_r in Hx.
    rewrite replaced_text_pieces.
    rewrite (marker_count_at_quote (x ++ lit "json:")), (marker_count_at_quote a),
      (marker_count_at_quote (lit " bson:")), (marker_count_at_quote (bson_val a b)),
      (marker_count_at_quote (lit " db:")), (marker_count_at_quote b).
    rewrite (marker_count_none _ H0), (marker_count_none _ H1), (marker_count_none _ H2).
    rewrite (marker_count_piece (bson_val a b)) by (apply bson_val_unquoted; assumption).
    change (marker_count (lit " bson:" ++ [dquote])) with 1.
    change (marker_count (lit " db:" ++ [dquote])) with 0.
    rewrite <- (app_nil_l (rewrite rest)), (IH [] Hx).
    destruct (ends_with _ _); lia.
Qed.

(** The count printed with an update, for any file the loop updates. *)
Lemma updated_count_exact (filepath content : str) (st : state) :
  ends_with test_suffix filepath = false ->
  read_file filepath st = Some content ->
  contains marker content = false ->
  rewrite content <> content ->
  filepath ∉ read_only st ->
  console (snd (visit filepath st))
  = console st ++ [Updated (basename filepath) (match_count content + overshoot content)].
Proof.
  intros Ht Hd Hm Hr Hro. rewrite (visit_changed _ content) by assumption.
  simpl. rewrite <- (app_nil_l (rewrite content)), (marker_count_rewrite content [] Hm).
  reflexivity.
Qed.

(** ** The count printed with an update *)

(** C5. The count printed with an update is the number of markers in the
    text written, and it is meant as the number of tags added, one for each
    match.  On a file with one tag pair whose derived name ends in [bson:],
    here the primary value [bson:,x], the text holds no marker before the
    run and one match; the run adds one tag, the closing quote of that tag
    makes a second marker with the name before it, and the line printed
    says two. *)
Theorem updated_count_overshoots :
  let filepath := path_join model_dir (lit "user.go") in
  let content := matched_text (lit "bson:,x") (lit "y") in
  let run := visit filepath (mkState {[ filepath := content ]} [] ∅) in
  contains marker content = false
  /\ match_count content = 1
  /\ rewrite content
     = json_tag (lit "bson:,x") ++ space :: bson_tag (lit "bson:")
       ++ space :: db_tag (lit "y")
  /\ marker_count (rewrite content) = 2
  /\ disk (snd run) !! filepath = Some (rewrite content)
  /\ console (snd run) = [Updated (lit "user.go") 2].
Proof.
  cbv zeta.
  split; [vm_compute; reflexivity|].
  split; [vm_compute; reflexivity|].
  split; [vm_compute; reflexivity|].
  split; [vm_compute; reflexivity|].
  split; vm_compute; reflexivity.
Qed.

(** * Further properties of the script *)

(** ** The pattern and the rewrite of one text *)

(** X1. The pattern matches at the head of a text exactly when the text
    starts with a primary tag, one space and a secondary tag whose values
    hold no double quote; the groups are then these two values and the
    match ends with the secondary tag. *)
Theorem match_at_iff (s json_val db_val rest : str) :
  match_at s = Some (json_val, db_val, rest)
  <-> s = matched_text json_val db_val ++ rest
      /\ ~ In dquote json_val /\ ~ In dquote db_val.
Proof.
  split.
  - apply match_at_sound.
  - intros (-> & Hj & Hd). apply match_at_complete; assumption.
Qed.

Lemma growth_lit (c : ascii) (s : str) :
  match_at (c :: s) = None -> growth (c :: s) = growth s.
Proof. intros E. unfold growth. rewrite (scan_lit _ _ E). reflexivity. Qed.

Lemma growth_hit (s a b rest : str) :
  match_at s = Some (a, b, rest) ->
  growth s = length (bson_tag (bson_val a b)) + 1 + growth rest.
Proof. intros E. unfold growth. rewrite (scan_hit _ _ _ _ E). reflexivity. Qed.

Lemma tags_inserted_sublist (s s' : str) : tags_inserted s s' -> sublist s s'.
Proof.
  induction 1 as [|c s s' _ IH|v s s' _ _ IH].
  - constructor.
  - apply sublist_skip. exact IH.
  - do 2 apply sublist_skip. apply sublist_inserts_l, sublist_cons. exact IH.
Qed.

Lemma rewrite_length (content : str) :
  length (rewrite content) = length content + growth content.
Proof.
  induction content as [|c s E IH|s a b rest E IH] using scan_ind.
  - reflexivity.
  - rewrite (rewrite_lit _ _ E), (growth_lit _ _ E). simpl. rewrite IH. reflexivity.
  - rewrite (rewrite_hit _ _ _ _ E), (growth_hit _ _ _ _ E), replace_json_db_tags.
    apply match_at_sound in E as (-> & _).
    unfold matched_text. repeat (rewrite ?length_app, ?length_cons). rewrite IH. lia.
Qed.

Lemma growth_match_count (content : str) :
  growth content = 0 <-> match_count content = 0.
Proof.
  induction content as [|c s E IH|s a b rest E IH] using scan_ind.
  - split; reflexivity.
  - rewrite (growth_lit _ _ E). destruct (match_count_lit _ _ E) as [-> _]. exact IH.
  - rewrite (growth_hit _ _ _ _ E). destruct (match_count_hit _ _ _ _ E) as [-> _].
    split; intros H; [lia | discriminate H].
Qed.

(** X2. The rewrite only inserts text: the input is a subsequence of the
    output, and the output is longer than the input by the derived tags
    and the one space that comes with each. *)
Theorem rewrite_only_inserts (content : str) :
  sublist content (rewrite content)
  /\ length (rewrite content) = length content + growth content.
Proof.
  split.
  - apply tags_inserted_sublist, rewrite_tags_inserted.
  - apply rewrite_length.
Qed.

(** X3. The rewrite leaves a text as it is exactly when the pattern
    matches nowhere in it; and a text it changes carries the marker
    afterwards, so that the skip guard holds for the file from then on. *)
Theorem rewrite_changes_iff_matched (content : str) :
  (rewrite content = content <-> match_count content = 0)
  /\ (rewrite content = content \/ contains marker (rewrite content) = true).
Proof.
  split; [|apply rewrite_same_or_marked].
  split.
  - intros H. apply growth_match_count.
    pose proof (rewrite_length content) as L. rewrite H in L. lia.
  - intros H. apply rewrite_no_match, no_match_by_count, H.
Qed.

(** X4. For a file the loop updates, the file gets the rewrite of its
    text as it is read, and the count printed is the number of matches
    plus the number of matches whose derived value ends in [bson:]; the
    number of matches is at least one. *)
Theorem updated_count_law (filepath raw : str) (st : state) :
  ends_with test_suffix filepath = false ->
  disk st !! filepath = Some raw ->
  filepath ∉ read_only st ->
  contains marker (universal_newlines raw) = false ->
  rewrite (universal_newlines raw) <> universal_newlines raw ->
  visit filepath st
  = (Completed,
     mkState (<[filepath := rewrite (universal_newlines raw)]> (disk st))
             (console st
              ++ [Updated (basename filepath)
                    (match_count (universal_newlines raw)
                     + overshoot (universal_newlines raw))])
             (read_only st))
  /\ 1 <= match_count (universal_newlines raw).
Proof.
  intros Ht Hd Hro Hm Hr. split.
  - rewrite (visit_changed _ (universal_newlines raw));
      [| exact Ht | apply read_file_raw; exact Hd | exact Hm | exact Hr | exact Hro].
    unfold print, store. simpl.
    rewrite <- (app_nil_l (rewrite (universal_newlines raw))),
      (marker_count_rewrite (universal_newlines raw) [] Hm).
    reflexivity.
  - destruct (match_count (universal_newlines raw)) eqn:E; [|lia].
    exfalso. apply Hr. apply rewrite_no_match, no_match_by_count, E.
Qed.

Lemma updated_count_law_witness :
  visit (path_join model_dir (lit "user.go"))
        (mkState {[ path_join model_dir (lit "user.go")
                    := matched_text (lit "id") (lit "id")
                       ++ [carriage_return; line_feed]
                       ++ matched_text (lit "bson:,x") (lit "y") ]} [] ∅)
  = (Completed,
     mkState (<[ path_join model_dir (lit "user.go")
                 := rewrite (matched_text (lit "id") (lit "id")
                             ++ [line_feed]
                             ++ matched_text (lit "bson:,x") (lit "y")) ]>
              {[ path_join model_dir (lit "user.go")
                 := matched_text (lit "id") (lit "id")
                    ++ [carriage_return; line_feed]
                    ++ matched_text (lit "bson:,x") (lit "y") ]})
             [Updated (lit "user.go") 3] ∅).
Proof.
  assert (Hr : rewrite (universal_newlines
                          (matched_text (lit "id") (lit "id")
                           ++ [carriage_return; line_feed]
                           ++ matched_text (lit "bson:,x") (lit "y")))
               <> universal_newlines
                    (matched_text (lit "id") (lit "id")
                     ++ [carriage_return; line_feed]
                     ++ matched_text (lit "bson:,x") (lit "y")))
    by (vm_compute; discriminate).
  destruct (updated_count_law
              (path_join model_dir (lit "user.go"))
              (matched_text (lit "id") (lit "id")
               ++ [carriage_return; line_feed]
               ++ matched_text (lit "bson:,x") (lit "y"))
              (mkState {[ path_join model_dir (lit "user.go")
                          := matched_text (lit "id") (lit "id")
                             ++ [carriage_return; line_feed]
                             ++ matched_text (lit "bson:,x") (lit "y") ]} [] ∅)
              eq_refl (lookup_singleton_eq _ _) (not_elem_of_empty _) eq_refl Hr)
    as [Hv _].
  exact Hv.
Defined.

(** ** The run over the directory *)

Lemma visit_frame (q p : str) (st : state) :
  disk (snd (visit q st)) !! p = disk st !! p
  \/ (p = q /\ ends_with test_suffix q = false /\ (q ∉ read_only st)
      /\ exists raw, disk st !! p = Some raw
                     /\ contains marker (universal_newlines raw) = false
                     /\ rewrite (universal_newlines raw) <> universal_newlines raw
                     /\ disk (snd (visit q st)) !! p
                        = Some (rewrite (universal_newlines raw))).
Proof.
  destruct (visit_cases q st) as [| | | | |c Ht Hd Hm Hr Hro]; try (left; reflexivity).
  destruct (decide (p = q)) as [->|Hne].
  - right. unfold read_file in Hd.
    destruct (disk st !! q) as [raw|] eqn:Hraw; [|discriminate Hd].
    injection Hd as <-.
    repeat split; [exact Ht | exact Hro |]. exists raw.
    repeat split; [exact Hm | exact Hr |]. simpl. apply lookup_insert_eq.
  - left. simpl. apply lookup_insert_ne. congruence.
Qed.


Lemma visit_domain (q p : str) (st : state) :
  is_Some (disk (snd (visit q st)) !! p) <-> is_Some (disk st !! p).
Proof.
  destruct (visit_frame q p st) as [-> | (_ & _ & _ & raw & Hd & _ & _ & ->)]; [tauto|].
  rewrite Hd. split; eauto.
Qed.


Lemma selected_is_no_test (listing : option (list str)) (p : str) :
  In p (selected_files listing) -> ends_with test_suffix p = false.
Proof.
  unfold selected_files. intros H. apply filter_In in H as [_ H].
  apply negb_true_iff in H. exact H.
Qed.


Lemma visit_settles (q : str) (st st1 : state) :
  ends_with test_suffix q = false ->
  visit q st = (Completed, st1) ->
  exists raw, disk st !! q = Some raw /\ disk st1 !! q = Some (settle raw).
Proof.
  intros Ht E. pose proof (visit_cases q st) as C. rewrite E in C. unfold settle.
  inversion C as [Ht'|Ht' Hd|c Ht' Hd Hm|c Ht' Hd Hm Hr|c Ht' Hd Hm Hr Hro
                  |c Ht' Hd Hm Hr Hro]; subst; try congruence;
    apply read_file_some in Hd as (raw & Hd & ->); exists raw; rewrite Hm.
  - split; [exact Hd | exact Hd].
  - destruct (decide _) as [_|N]; [|contradiction]. split; [exact Hd | exact Hd].
  - destruct (decide _) as [N|_]; [contradiction|]. split; [exact Hd|].
    simpl. apply lookup_insert_eq.
Qed.

Lemma visit_all_settles (paths : list str) (st st' : state) :
  visit_all paths st = (Completed, st') ->
  forall p, In p paths -> ends_with test_suffix p = false ->
            exists raw, disk st !! p = Some raw /\ disk st' !! p = Some (settle raw).
Proof.
  revert st. induction paths as [|q paths IH]; intros st H p Hin Ht; [destruct Hin|].
  cbn [visit_all] in H.
  pose proof (visit_makes_quiet q st) as Hquiet.
  destruct (visit q st) as [[|] st1] eqn:E; [|discriminate H]. cbn [snd] in Hquiet.
  assert (Hst' : st' = snd (visit_all paths st1)) by (rewrite H; reflexivity).
  destruct (decide (p = q)) as [->|Hne].
  - assert (Hkeep : disk st' !! q = disk st1 !! q)
      by (rewrite Hst'; apply visit_all_quiet_path; exact Hquiet).
    rewrite Hkeep. apply visit_settles; assumption.
  - destruct Hin as [Hin | Hin]; [congruence|].
    destruct (IH st1 H p Hin Ht) as (raw & Hd & Hs).
    exists raw. split; [|exact Hs].
    rewrite <- Hd. symmetry.
    replace st1 with (snd (visit q st)) by (rewrite E; reflexivity).
    apply visit_other_path. exact Hne.
Qed.

(** X6. When a run gets through, every selected file holds in the end
    what the loop body makes of its first text: that text when, as it is
    read, it carried the marker or held no match, and otherwise the
    rewrite of the text as it is read; whatever the other files hold and
    however often the listing names the file. *)
Theorem completed_run_settles (listing : option (list str)) (st : state) (p : str) :
  fst (main listing st) = Completed ->
  In p (selected_files listing) ->
  exists raw, disk st !! p = Some raw
              /\ disk (snd (main listing st)) !! p = Some (settle raw).
Proof.
  rewrite main_over_selection. intros H Hin.
  apply (visit_all_settles (selected_files listing) st); [| exact Hin |].
  - destruct (visit_all _ st) as [e st']. simpl in H. subst e. reflexivity.
  - apply (selected_is_no_test listing). exact Hin.
Qed.

Lemma completed_run_settles_witness :
  exists raw,
    disk (mkState demo_disk [] ∅) !! path_join model_dir (lit "user.go") = Some raw
    /\ disk (snd (main (Some demo_names) (mkState demo_disk [] ∅)))
         !! path_join model_dir (lit "user.go")
       = Some (settle raw).
Proof.
  apply (completed_run_settles (Some demo_names) (mkState demo_disk [] ∅)
           (path_join model_dir (lit "user.go"))).
  - vm_compute. reflexivity.
  - vm_compute. tauto.
Defined.











Lemma visit_all_lines (paths : list str) (st : state) :
  (forall p, In p paths -> ends_with test_suffix p = false) ->
  fst (visit_all paths st) = Completed ->
  exists out,
    console (snd (visit_all paths st)) = console st ++ out
    /\ map report_name out = map basename paths.
Proof.
  revert st. induction paths as [|q paths IH]; intros st Hnt H.
  - exists []. split; [symmetry; apply app_nil_r | reflexivity].
  - cbn [visit_all] in *.
    assert (Hq : ends_with test_suffix q = false) by (apply Hnt; left; reflexivity).
    assert (Hps : forall p, In p paths -> ends_with test_suffix p = false)
      by (intros p Hp; apply Hnt; right; exact Hp).
    pose proof (visit_cases q st) as C.
    destruct (visit q st) as [[|] st1] eqn:E; [|discriminate H].
    destruct (IH st1 Hps H) as (out & Hout & Hnames).
    assert (Hline : exists r, console st1 = console st ++ [r]
                              /\ report_name r = basename q).
    { inversion C; subst; try congruence; eexists; split; reflexivity. }
    destruct Hline as (r & Hr & Hn).
    exists (r :: out). split.
    + rewrite Hout, Hr, <- app_assoc. reflexivity.
    + simpl. rewrite Hn, Hnames. reflexivity.
Qed.

(** X9. A run that gets through prints one line for each selected file,
    after the lines that were there, in the order of the selection, each
    with the base name of its file; for a test file it prints nothing. *)
Theorem one_line_per_file (listing : option (list str)) (st : state) :
  fst (main listing st) = Completed ->
  exists out,
    console (snd (main listing st)) = console st ++ out
    /\ map report_name out = map basename (selected_files listing).
Proof.
  rewrite main_over_selection. apply visit_all_lines. apply selected_is_no_test.
Qed.

Lemma one_line_per_file_witness :
  exists out,
    console (snd (main (Some demo_names) (mkState demo_disk [] ∅))) = [] ++ out
    /\ map report_name out = map basename (selected_files (Some demo_names)).
Proof.
  apply (one_line_per_file (Some demo_names) (mkState demo_disk [] ∅)).
  vm_compute. reflexivity.
Defined.

(** ** Names, derived values and the marker *)

(** X10. The base name of a path made by joining a directory and a name
    without a slash is that name: the lines printed carry the names of the
    files as the directory lists them. *)
Theorem basename_of_joined (dir name : str) :
  ~ In slash name -> basename (path_join dir name) = name.
Proof.
  intros H. unfold basename, path_join.
  rewrite rev_app_distr. cbn [rev]. rewrite <- app_assoc. cbn [app].
  rewrite first_component_app; [apply rev_involutive|].
  intros Hin. apply H, in_rev. exact Hin.
Qed.

Lemma basename_of_joined_witness :
  basename (path_join model_dir (lit "user.go")) = lit "user.go".
Proof.
  apply (basename_of_joined model_dir (lit "user.go")).
  absent_from_literal.
Defined.

(** X11. The value derived for a match is well formed: it holds no double
    quote, so that the derived tag ends where the callback closes it; the
    derived name holds no comma; and the first comma-separated component
    of the derived value is the derived name, whatever modifier follows. *)
Theorem derived_value_well_formed (s json_val db_val rest : str) :
  match_at s = Some (json_val, db_val, rest) ->
  ~ In dquote (bson_val json_val db_val)
  /\ ~ In comma (bson_name json_val db_val)
  /\ first_component comma (bson_val json_val db_val) = bson_name json_val db_val.
Proof.
  intros H. apply match_at_sound in H as (_ & Hj & Hd).
  split; [apply bson_val_unquoted; assumption|].
  split; [apply bson_name_uncomma|].
  unfold bson_val. destruct (omitempty json_val).
  - apply first_component_app, bson_name_uncomma.
  - rewrite app_nil_r. apply first_component_whole, bson_name_uncomma.
Qed.

Lemma derived_value_well_formed_witness :
  first_component comma (bson_val (lit "-,omitempty") (lit "pw_hash,x"))
  = bson_name (lit "-,omitempty") (lit "pw_hash,x").
Proof.
  destruct (derived_value_well_formed
              (matched_text (lit "-,omitempty") (lit "pw_hash,x"))
              (lit "-,omitempty") (lit "pw_hash,x") [] eq_refl) as (_ & _ & H).
  exact H.
Defined.

Lemma marker_count_some (s : str) :
  contains marker s = true -> 1 <= marker_count s.
Proof.
  induction s as [|c s IH]; intros H; [discriminate H|].
  destruct (starts_with marker (c :: s)) eqn:E.
  - apply starts_with_iff in E as [r ->]. rewrite marker_count_hit. lia.
  - rewrite (marker_count_miss _ _ E). apply IH.
    cbn [contains] in H. rewrite E in H. exact H.
Qed.

(** X12. The count of the markers and the skip guard agree: the search
    that counts finds no marker exactly when the guard finds none. *)
Theorem marker_count_zero_iff (s : str) :
  marker_count s = 0 <-> contains marker s = false.
Proof.
  split.
  - intros H. destruct (contains marker s) eqn:E; [|reflexivity].
    apply marker_count_some in E. lia.
  - apply marker_count_none.
Qed.

Lemma no_match_before_pair (c : ascii) (pre json_val db_val post : str) :
  ~ In dquote (c :: pre) ->
  match_at ((c :: pre) ++ matched_text json_val db_val ++ post) = None.
Proof.
  intros Hpre.
  destruct (match_at _) as [[[x y] r]|] eqn:E; [exfalso | reflexivity].
  apply match_at_sound in E as (E & _ & _).
  rewrite !matched_text_pair in E.
  apply (f_equal (app [])) in E. rewrite app_nil_l in E at 1.
  rewrite !pair_shape in E.
  apply split_at_quote in E as [E _]; [| auto with unquoted ..].
  apply (f_equal (@length ascii)) in E. rewrite !length_app in E. simpl in E. lia.
Qed.

(** X13. A tag pair with one space between its tags, after a text without
    a double quote, is rewritten where it stands: the text before it stays,
    the derived tag comes between the two tags, and the rewrite goes on
    with the text after the pair, which counts one match less. *)
Theorem field_line_is_rewritten (pre json_val db_val post : str) :
  ~ In dquote pre -> ~ In dquote json_val -> ~ In dquote db_val ->
  rewrite (pre ++ matched_text json_val db_val ++ post)
  = pre ++ (json_tag json_val ++ space :: bson_tag (bson_val json_val db_val)
            ++ space :: db_tag db_val) ++ rewrite post
  /\ match_count (pre ++ matched_text json_val db_val ++ post)
     = S (match_count post).
Proof.
  intros Hpre Hj Hd. induction pre as [|c pre IH].
  - pose proof (match_at_complete json_val db_val post Hj Hd) as E.
    cbn [app]. rewrite (rewrite_hit _ _ _ _ E), replace_json_db_tags.
    destruct (match_count_hit _ _ _ _ E) as [-> _]. split; reflexivity.
  - pose proof (no_match_before_pair c pre json_val db_val post Hpre) as E.
    cbn [app] in *. rewrite (rewrite_lit _ _ E).
    destruct (match_count_lit _ _ E) as [-> _].
    destruct IH as [-> ->]; [|split; reflexivity].
    intros Hin. apply Hpre. right. exact Hin.
Qed.

Lemma field_line_is_rewritten_witness :
  rewrite (lit "Name string `" ++ matched_text (lit "name,omitempty") (lit "name")
           ++ lit "`")
  = lit "Name string `"
    ++ (json_tag (lit "name,omitempty") ++ space :: bson_tag (lit "name,omitempty")
        ++ space :: db_tag (lit "name")) ++ lit "`".
Proof.
  destruct (field_line_is_rewritten
              (lit "Name string `") (lit "name,omitempty") (lit "name") (lit "`")
              (unquoted_by_contains (lit "Name string `") eq_refl)
              (unquoted_by_contains (lit "name,omitempty") eq_refl)
              (unquoted_by_contains (lit "name") eq_refl)) as [H _].
  rewrite H. reflexivity.
Defined.

(** ** What a run leaves alone, and the order of the listing *)

(** X14. A path that ends in [_test.go] is passed over before the file is
    opened: whatever the run does, such a file holds afterwards what it
    held before, tag pairs or not, readable or not. *)
Theorem test_file_is_left_alone (listing : option (list str)) (st : state) (p : str) :
  ends_with test_suffix p = true ->
  ~ In p (selected_files listing)
  /\ disk (snd (main listing st)) !! p = disk st !! p.
Proof.
  intros Ht. split.
  - intros Hin. apply selected_is_no_test in Hin. congruence.
  - unfold main. apply visit_all_quiet_path. left. exact Ht.
Qed.

Lemma test_file_is_left_alone_witness :
  disk (snd (main (Some [lit "user_test.go"])
               (mkState {[ path_join model_dir (lit "user_test.go")
                           := matched_text (lit "id") (lit "id") ]} [] ∅)))
    !! path_join model_dir (lit "user_test.go")
  = Some (matched_text (lit "id") (lit "id")).
Proof.
  destruct (test_file_is_left_alone
              (Some [lit "user_test.go"])
              (mkState {[ path_join model_dir (lit "user_test.go")
                          := matched_text (lit "id") (lit "id") ]} [] ∅)
              (path_join model_dir (lit "user_test.go")) eq_refl) as [_ H].
  rewrite H. apply lookup_singleton_eq.
Defined.



Lemma str_leb_antisym (a b : str) :
  str_leb a b = true -> str_leb b a = true -> a = b.
Proof.
  revert b. induction a as [|x a IH]; intros [|y b]; simpl; try congruence.
  rewrite (ascii_eqb_sym y x). destruct (Ascii.eqb x y) eqn:E.
  - apply Ascii.eqb_eq in E as ->. intros H1 H2. f_equal. exact (IH b H1 H2).
  - intros H1 H2. apply Nat.ltb_lt in H1, H2. lia.
Qed.

Lemma str_leb_refl (a : str) : str_leb a a = true.
Proof. induction a as [|x a IH]; simpl; [reflexivity|]. rewrite Ascii.eqb_refl. exact IH. Qed.

Lemma ordered_head_least (x : str) (l : list str) (y : str) :
  StronglySorted str_le (x :: l) -> In y (x :: l) -> str_leb x y = true.
Proof.
  intros H [<- | Hy]; [apply str_leb_refl|].
  apply StronglySorted_inv in H as [_ H].
  rewrite List.Forall_forall in H. exact (H y Hy).
Qed.

(** Two ascending lists with the same elements are the same list. *)
Lemma ordered_unique (l1 l2 : list str) :
  StronglySorted str_le l1 -> StronglySorted str_le l2 ->
  Permutation l1 l2 -> l1 = l2.
Proof.
  revert l2. induction l1 as [|x l1 IH]; intros l2 H1 H2 P.
  - apply Permutation_nil in P. symmetry. exact P.
  - destruct l2 as [|y l2]; [symmetry in P; apply Permutation_nil in P; discriminate|].
    assert (x = y) as ->.
    { apply str_leb_antisym.
      - apply (ordered_head_least x l1 y H1), (Permutation_in _ (Permutation_sym P)).
        left. reflexivity.
      - apply (ordered_head_least y l2 x H2), (Permutation_in _ P).
        left. reflexivity. }
    f_equal. apply IH.
    + apply StronglySorted_inv in H1. tauto.
    + apply StronglySorted_inv in H2. tauto.
    + apply Permutation_cons_inv in P. exact P.
Qed.

(** X16. The order in which the directory lists its names plays no part:
    two listings with the same names give the same selection, and a run
    does the same on both. *)
Theorem listing_order_is_irrelevant (names names' : list str) (st : state) :
  Permutation names names' ->
  selected_files (Some names) = selected_files (Some names')
  /\ main (Some names) st = main (Some names') st.
Proof.
  intros P.
  assert (Hs : sorted (glob_go (Some names)) = sorted (glob_go (Some names'))).
  { apply ordered_unique; [apply sorted_ordered .. |].
    rewrite !sorted_perm. unfold glob_go.
    apply Permutation_map, filter_perm, P. }
  unfold selected_files, main. rewrite Hs. split; reflexivity.
Qed.

Lemma listing_order_is_irrelevant_witness :
  selected_files (Some [lit "user.go"; lit "task.go"])
  = selected_files (Some [lit "task.go"; lit "user.go"]).
Proof.
  apply (listing_order_is_irrelevant
           [lit "user.go"; lit "task.go"] [lit "task.go"; lit "user.go"]
           (mkState demo_disk [] ∅)).
  apply perm_swap.
Defined.
